(** * Equalizers: zero-forcing and MMSE FIR equalizer design

    A shallow embedding of [Equalizers/equalizers.py].  The numpy arrays of
    the program are lists of exact rationals: a 1-D array is a [vector], a
    2-D array is a [matrix] stored row by row.  Python exceptions are values
    of [exn]; a method that mutates [self] is a function from the instance
    to an outcome paired with the instance it leaves behind, so what an
    exception leaves on the instance can be stated. *)

From Stdlib Require Import String Bool ZArith QArith Qround Lia Lqa Setoid Morphisms List.
Import ListNotations.

Open Scope Q_scope.

Abbreviation vector := (list Q).
Abbreviation matrix := (list (list Q)).

(** ** Exceptions and outcomes *)

Inductive exn : Type :=
| ValueError (msg : string)
| IndexError (msg : string)
| LinAlgError (msg : string)
| OverflowError (msg : string).

Inductive result (A : Type) : Type :=
| Ok (a : A)
| Raise (e : exn).

Arguments Ok {A} a.
Arguments Raise {A} e.

Definition rbind {A B : Type} (r : result A) (k : A -> result B) : result B :=
  match r with
  | Ok a => k a
  | Raise e => Raise e
  end.

Notation "x <~ r ;; k" := (rbind r (fun x => k))
  (at level 61, r at next level, right associativity).

(** ** numpy and scipy primitives, in exact arithmetic *)

Module np.

(** [np.zeros(n)]: refuses a negative length. *)
Definition zeros (n : Z) : result vector :=
  if (n <? 0)%Z then Raise (ValueError "negative dimensions are not allowed")
  else Ok (repeat 0 (Z.to_nat n)).

(** [np.hstack] of two 1-D arrays. *)
Definition hstack (a b : vector) : vector := a ++ b.

(** [a[k]] with Python's index rule: a negative index counts from the end. *)
Definition norm_index (len : nat) (k : Z) : option nat :=
  let n := Z.of_nat len in
  if (k <? - n)%Z then None
  else if (k <? 0)%Z then Some (Z.to_nat (k + n))
  else if (k <? n)%Z then Some (Z.to_nat k)
  else None.

Definition getitem (a : vector) (k : Z) : result Q :=
  match norm_index (length a) k with
  | Some i => Ok (nth i a 0)
  | None => Raise (IndexError "index out of bounds")
  end.

Fixpoint update (a : vector) (i : nat) (v : Q) : vector :=
  match a, i with
  | [], _ => []
  | _ :: a', O => v :: a'
  | x :: a', S i' => x :: update a' i' v
  end.

(** [a[k] = v] on a copy of [a]. *)
Definition setitem (a : vector) (k : Z) (v : Q) : result vector :=
  match norm_index (length a) k with
  | Some i => Ok (update a i v)
  | None => Raise (IndexError "index out of bounds")
  end.

(** [scipy.linalg.toeplitz(c, r)]: [len c] rows, [len r] columns,
    entry [(i,j)] is [c[i-j]] on and below the diagonal and [r[j-i]]
    above it. *)
Definition toeplitz (c r : vector) : matrix :=
  map (fun i =>
         map (fun j => if (j <=? i)%nat then nth (i - j) c 0
                       else nth (j - i) r 0)
             (seq 0 (length r)))
      (seq 0 (length c)).

Fixpoint dot (a b : vector) : Q :=
  match a, b with
  | x :: a', y :: b' => x * y + dot a' b'
  | _, _ => 0
  end.

Definition ncols (A : matrix) : nat := length (hd [] A).
Definition col (j : nat) (A : matrix) : vector := map (fun r => nth j r 0) A.

(** [A.T] *)
Definition transpose (A : matrix) : matrix :=
  map (fun j => col j A) (seq 0 (ncols A)).

(** [A @ x], [x @ A] and [A @ B] *)
Definition matvec (A : matrix) (x : vector) : vector :=
  map (fun r => dot r x) A.
Definition vecmat (x : vector) (A : matrix) : vector :=
  map (fun j => dot x (col j A)) (seq 0 (ncols A)).
Definition matmul (A B : matrix) : matrix :=
  map (fun r => vecmat r B) A.

Fixpoint vadd (a b : vector) : vector :=
  match a, b with
  | x :: a', y :: b' => (x + y) :: vadd a' b'
  | _, _ => []
  end.
Fixpoint vsub (a b : vector) : vector :=
  match a, b with
  | x :: a', y :: b' => (x - y) :: vsub a' b'
  | _, _ => []
  end.
Definition vscale (c : Q) (a : vector) : vector := map (Qmult c) a.

Fixpoint madd (A B : matrix) : matrix :=
  match A, B with
  | r :: A', s :: B' => vadd r s :: madd A' B'
  | _, _ => []
  end.
Definition mscale (c : Q) (A : matrix) : matrix := map (vscale c) A.

(** [np.eye(n)] *)
Definition eye (n : nat) : matrix :=
  map (fun i => map (fun j => if (i =? j)%nat then 1 else 0) (seq 0 n))
      (seq 0 n).

(** [np.diag] of a 2-D array: the main diagonal. *)
Definition diag (A : matrix) : vector :=
  map (fun i => nth i (nth i A []) 0) (seq 0 (Nat.min (length A) (ncols A))).

(** [np.argmax]: index of the first maximal entry; an empty array is
    refused. *)
Fixpoint argmax_from (best : Q) (bi i : nat) (l : vector) : nat :=
  match l with
  | [] => bi
  | x :: l' =>
      if Qle_bool x best then argmax_from best bi (S i) l'
      else argmax_from x i (S i) l'
  end.

Definition argmax (l : vector) : result nat :=
  match l with
  | [] => Raise (ValueError "attempt to get argmax of an empty sequence")
  | x :: l' => Ok (argmax_from x 0%nat 1%nat l')
  end.

(** [np.convolve(a, v)] in its default mode ['full']: the operands are
    swapped so that the first is the longer, an empty operand is refused,
    and entry [n] of the result is the sum of the [a[m] * v[n-m]]. *)
Fixpoint sum_upto (f : nat -> Q) (n : nat) : Q :=
  match n with
  | O => 0
  | S n' => sum_upto f n' + f n'
  end.

Definition conv_at (a v : vector) (n : nat) : Q :=
  sum_upto (fun m => if (m <=? n)%nat then nth m a 0 * nth (n - m) v 0 else 0)
           (length a).

Definition convolve (a v : vector) : result vector :=
  let '(a, v) := if (length a <? length v)%nat then (v, a) else (a, v) in
  match a, v with
  | [], _ => Raise (ValueError "a cannot be empty")
  | _, [] => Raise (ValueError "v cannot be empty")
  | _, _ => Ok (map (conv_at a v) (seq 0 (length a + length v - 1)))
  end.


(** [np.linalg.inv]: Gauss-Jordan elimination on the rows of [A | I].  A
    row is the pair of its part under [A] and its part under [I].  Any
    non-zero entry of the current column serves as pivot: in exact
    arithmetic the inverse does not depend on the pivoting order, and
    elimination stops with [None] exactly when the column has no pivot. *)
Definition arow : Type := (vector * vector)%type.

Fixpoint pick_pivot (rows : list arow) : option (arow * list arow) :=
  match rows with
  | [] => None
  | r :: rows' =>
      if Qeq_bool (hd 0 (fst r)) 0 then
        match pick_pivot rows' with
        | Some (p, rest) => Some (p, r :: rest)
        | None => None
        end
      else Some (r, rows')
  end.

Definition eliminate (pl pr : vector) (r : arow) : arow :=
  let f := hd 0 (fst r) in
  (vsub (tl (fst r)) (vscale f pl), vsub (snd r) (vscale f pr)).

Definition back_subst (pl pr : vector) (X : matrix) : vector :=
  fold_left (fun acc cx => vsub acc (vscale (fst cx) (snd cx)))
            (combine pl X) pr.

Fixpoint gauss (n : nat) (rows : list arow) : option matrix :=
  match n with
  | O => Some []
  | S n' =>
      match pick_pivot rows with
      | None => None
      | Some (p, others) =>
          let c := hd 0 (fst p) in
          let pl := vscale (/ c) (tl (fst p)) in
          let pr := vscale (/ c) (snd p) in
          match gauss n' (map (eliminate pl pr) others) with
          | None => None
          | Some X => Some (back_subst pl pr X :: X)
          end
      end
  end.

Definition inv (A : matrix) : result matrix :=
  let n := length A in
  if forallb (fun r => (length r =? n)%nat) A then
    match gauss n (combine A (eye n)) with
    | Some X => Ok X
    | None => Raise (LinAlgError "Singular matrix")
    end
  else Raise (LinAlgError "Last 2 dimensions of the array must be square").

(** [np.linalg.pinv]: the Moore-Penrose pseudo-inverse, computed column by
    column (Greville's recursion).  [greville m cols] takes the columns of
    the matrix last column first, each of length [m], and returns the rows
    of the pseudo-inverse last row first. *)
Definition lincomb (m : nat) (cs : vector) (vs : list vector) : vector :=
  fold_right (fun cv acc => vadd (vscale (fst cv) (snd cv)) acc)
             (repeat 0 m) (combine cs vs).

Definition is_zero (v : vector) : bool :=
  forallb (fun x => Qeq_bool x 0) v.

Fixpoint greville (m : nat) (cols : list vector) : matrix :=
  match cols with
  | [] => []
  | a :: prev =>
      let P := greville m prev in
      let d := matvec P a in
      let c := vsub a (lincomb m d prev) in
      let b := if is_zero c
               then vscale (/ (1 + dot d d)) (lincomb m d P)
               else vscale (/ dot c c) c in
      b :: map (fun pd => vsub (fst pd) (vscale (snd pd) b)) (combine P d)
  end.

Definition pinv (A : matrix) : matrix :=
  rev (greville (length A) (rev (transpose A))).

End np.

(** ** The base class *)

Record Equalizer : Type := mkEqualizer {
  N : nat;          (* length of the equalizer *)
  w : vector;       (* equalizer weights *)
  opt_delay : Z     (* optimized equalizer delay *)
}.

(** [Equalizer.__init__]: [np.zeros(N)] weights, delay 0. *)
Definition init (n : nat) : Equalizer :=
  mkEqualizer n (repeat 0 n) 0%Z.

(** [Equalizer.convMatrix(h, p)] *)
Definition convMatrix (h : vector) (p : nat) : result matrix :=
  z <~ np.zeros (Z.of_nat p - 1) ;;
  let col := np.hstack h z in
  h0 <~ np.getitem h 0 ;;
  z' <~ np.zeros (Z.of_nat p - 1) ;;
  let row := np.hstack [h0] z' in
  Ok (np.toeplitz col row).

(** [Equalizer.equalize(inputSamples)] *)
Definition equalize (self : Equalizer) (inputSamples : vector) : result vector :=
  np.convolve inputSamples (w self).

(** ** Methods that assign to [self]

    A method is a function from the instance to its outcome and the instance
    afterwards; an exception keeps the assignments made before it. *)

Definition Py (A : Type) : Type := Equalizer -> result A * Equalizer.

Definition ret {A : Type} (a : A) : Py A := fun self => (Ok a, self).
Definition raise {A : Type} (e : exn) : Py A := fun self => (Raise e, self).
Definition lift {A : Type} (r : result A) : Py A := fun self => (r, self).
Definition bind {A B : Type} (m : Py A) (k : A -> Py B) : Py B :=
  fun self =>
    match m self with
    | (Ok a, self') => k a self'
    | (Raise e, self') => (Raise e, self')
    end.

Notation "x <- m ;; k" := (bind m (fun x => k))
  (at level 61, m at next level, right associativity).

Definition self_N : Py nat := fun self => (Ok (N self), self).
Definition set_w (v : vector) : Py unit :=
  fun self => (Ok tt, mkEqualizer (N self) v (opt_delay self)).
Definition set_opt_delay (k : Z) : Py unit :=
  fun self => (Ok tt, mkEqualizer (N self) (w self) k).

(** The [ValueError] of both designers. *)
Definition InvalidDelay : exn :=
  ValueError "Given delay is too large delay (should be < L+N-1".

(** ** The zero-forcing equalizer *)

Module zeroForcing.

Definition design (h : vector) (delay : option Z) : Py Q :=
  let L := length h in
  n <- self_N ;;
  H <- lift (convMatrix h n) ;;
  let Hp := np.pinv H in
  opt_delay <- lift (np.argmax (np.diag (np.matmul H Hp))) ;;
  _ <- set_opt_delay (Z.of_nat opt_delay) ;;
  delay <- match delay with
           | None => ret (Z.of_nat opt_delay)
           | Some k =>
               if (Z.of_nat L + Z.of_nat n - 1 <=? k)%Z
               then raise InvalidDelay
               else ret k
           end ;;
  let k0 := delay in
  z <- lift (np.zeros (Z.of_nat n + Z.of_nat L - 1)) ;;
  d <- lift (np.setitem z k0 1) ;;
  _ <- set_w (np.matvec Hp d) ;;
  let MSE := 1 - np.dot (np.vecmat (np.vecmat d H) Hp) d in
  ret MSE.

End zeroForcing.

(** ** The MMSE equalizer *)

Module MMSEEQ.

Section Design.

(** Python's float power [x ** y] has no exact rational value in general,
    and none at all when the result is out of the range of a float: [pow]
    gives the value when there is one, and [float_pow] raises Python's
    [OverflowError] when there is none. *)
Variable pow : Q -> Q -> option Q.

Definition float_pow (x y : Q) : result Q :=
  match pow x y with
  | Some v => Ok v
  | None => Raise (OverflowError "(34, 'Numerical result out of range')")
  end.

Definition design (h : vector) (snr : Q) (delay : option Z) : Py Q :=
  let L := length h in
  n <- self_N ;;
  H <- lift (convMatrix h n) ;;
  gamma <- lift (float_pow 10 (- snr / 10)) ;;
  let HT := np.transpose H in
  R <- lift (np.inv (np.madd (np.matmul HT H) (np.mscale gamma (np.eye n)))) ;;
  opt_delay <- lift (np.argmax (np.diag (np.matmul (np.matmul H R) HT))) ;;
  _ <- set_opt_delay (Z.of_nat opt_delay) ;;
  delay <- match delay with
           | None => ret (Z.of_nat opt_delay)
           | Some k => ret k
           end ;;
  _ <- (if (Z.of_nat L + Z.of_nat n - 1 <=? delay)%Z
        then raise InvalidDelay else ret tt) ;;
  let k0 := delay in
  z <- lift (np.zeros (Z.of_nat n + Z.of_nat L - 1)) ;;
  d <- lift (np.setitem z k0 1) ;;
  R' <- lift (np.inv (np.madd (np.matmul HT H) (np.mscale gamma (np.eye n)))) ;;
  _ <- set_w (np.matvec (np.matmul R' HT) d) ;;
  R'' <- lift (np.inv (np.madd (np.matmul HT H) (np.mscale gamma (np.eye n)))) ;;
  let MSE := 1 - np.dot (np.vecmat (np.vecmat (np.vecmat d H) R'') HT) d in
  ret MSE.

End Design.

End MMSEEQ.

(** ** The abstract method [design]

    [Equalizer.design] is abstract; each subclass overrides it with its own
    parameters.  A [designer] names the subclass and carries what only that
    subclass takes. *)

Inductive designer : Type :=
| ZF
| MMSE (pow : Q -> Q -> option Q) (snr : Q).

Definition design (D : designer) (h : vector) (delay : option Z) : Py Q :=
  match D with
  | ZF => zeroForcing.design h delay
  | MMSE pow snr => MMSEEQ.design pow h snr delay
  end.

(** An exact [**] for integral exponents: the exponent is rounded down. *)
Definition pow_floor (x y : Q) : option Q := Some (Qpower x (Qfloor y)).

(** The same with the range of a double, for the base 10 and integral
    exponents: [10 ** y] is out of range above [y = 308] (Python raises
    [OverflowError]), and below [y = -323] it is rounded to [0.0]. *)
Definition pow_double (x y : Q) : option Q :=
  if (308 <? Qfloor y)%Z then None
  else if (Qfloor y <? -323)%Z then Some 0
  else Some (Qpower x (Qfloor y)).

(** ** Specification vocabulary *)

(** Entry [(i,j)] of a matrix. *)
Definition entry (A : matrix) (i j : nat) : Q := nth j (nth i A []) 0.

(** [A] has [m] rows of [n] entries each. *)
Definition shape (m n : nat) (A : matrix) : Prop :=
  length A = m /\ Forall (fun r => length r = n) A.

(** Entrywise equality of rationals. *)
Definition veq (a b : vector) : Prop := Forall2 Qeq a b.

(** The full linear convolution of two sequences, as the textbook states
    it: entry [n] is the sum over [k = 0..n] of [x[k] * y[n-k]], an entry
    outside a sequence counting as zero; it has [len x + len y - 1]
    entries. *)
Definition conv_term (x y : vector) (n k : nat) : Q :=
  nth k x 0 * nth (n - k) y 0.

Definition conv_sum (x y : vector) (n : nat) : Q :=
  np.sum_upto (conv_term x y n) (S n).

Definition full_convolution (x y : vector) : vector :=
  map (conv_sum x y) (seq 0 (length x + length y - 1)).

(** [i] is the first index at which [l] takes its maximum. *)
Definition first_max (l : vector) (i : nat) : Prop :=
  (i < length l)%nat /\
  (forall j, (j < length l)%nat -> nth j l 0 <= nth i l 0) /\
  (forall j, (j < i)%nat -> nth j l 0 < nth i l 0).

(** [A] has a trivial kernel on vectors of length [n]: [A @ x = 0] only
    for [x = 0]. *)
Definition nonsingular (n : nat) (A : matrix) : Prop :=
  forall x : vector,
    length x = n ->
    Forall (fun r => np.dot r x == 0) A ->
    Forall (fun v => v == 0) x.

(** Entry [(i,j)] of [A.T @ A]. *)
Definition gram (A : matrix) (i j : nat) : Q :=
  np.dot (np.col i A) (np.col j A).

(** The per-delay fidelity scores of the two designers: the diagonal of
    [H @ pinv(H)], and of [H @ R @ H.T] for the regularised inverse [R]. *)
Definition zf_scores (H : matrix) : vector :=
  np.diag (np.matmul H (np.pinv H)).

Definition normal_matrix (gamma : Q) (H : matrix) : matrix :=
  np.madd (np.matmul (np.transpose H) H)
          (np.mscale gamma (np.eye (np.ncols H))).

Definition mmse_scores (H R : matrix) : vector :=
  np.diag (np.matmul (np.matmul H R) (np.transpose H)).

(** The last steps of a design, from the resolved delay [k0] on, for the
    instance that already holds the new [opt_delay]: the target vector [d],
    the weights [W @ d] and the error [1 - d @ E @ d]. *)
Definition finish (m : nat) (W : matrix) (quad : vector -> Q) (k0 : Z)
  (self : Equalizer) : result Q * Equalizer :=
  match np.setitem (repeat 0 m) k0 1 with
  | Raise e => (Raise e, self)
  | Ok d => (Ok (1 - quad d),
             mkEqualizer (N self) (np.matvec W d) (opt_delay self))
  end.

Definition zf_quad (H : matrix) (d : vector) : Q :=
  np.dot (np.vecmat (np.vecmat d H) (np.pinv H)) d.

Definition mmse_quad (H R : matrix) (d : vector) : Q :=
  np.dot (np.vecmat (np.vecmat (np.vecmat d H) R) (np.transpose H)) d.

(** The power [10 ** (-snr/10)] of the MMSE designer has a value, the
    noise ratio [gamma], and it is positive. *)
Definition positive_noise (D : designer) : Prop :=
  match D with
  | ZF => True
  | MMSE pow snr => exists gamma, pow 10 (- snr / 10) = Some gamma /\ 0 < gamma
  end.

(** The scores from which a designer picks [opt_delay], and the matrix [W]
    with which it computes the weights [W @ d]. *)
Definition scores (D : designer) (H : matrix) : result vector :=
  match D with
  | ZF => Ok (zf_scores H)
  | MMSE pow snr =>
      gamma <~ MMSEEQ.float_pow pow 10 (- snr / 10) ;;
      R <~ np.inv (normal_matrix gamma H) ;;
      Ok (mmse_scores H R)
  end.

Definition solver (D : designer) (H : matrix) : result matrix :=
  match D with
  | ZF => Ok (np.pinv H)
  | MMSE pow snr =>
      gamma <~ MMSEEQ.float_pow pow 10 (- snr / 10) ;;
      R <~ np.inv (normal_matrix gamma H) ;;
      Ok (np.matmul R (np.transpose H))
  end.

(** The vector of length [m] that is 1 at index [k] and 0 elsewhere. *)
Definition unit_impulse (m k : nat) : vector := np.update (repeat 0 m) k 1.

(** The same, said entry by entry: [d] has [m] entries, the one at [k] is
    1 and the others are 0. *)
Definition impulse_at (m k : nat) (d : vector) : Prop :=
  length d = m /\
  forall j, (j < m)%nat -> nth j d 0 = if (j =? k)%nat then 1 else 0.

(** Entry [(i,j)] of the product of [A] and [B] with inner dimension [n],
    as the textbook has it: the sum of the [A[i,l] * B[l,j]]. *)
Definition product_entry (A B : matrix) (n i j : nat) : Q :=
  np.sum_upto (fun l => entry A i l * entry B l j) n.

(** The fidelity score of the delay [k]: the [k]-th diagonal entry of
    [H . Hp], and of [H . R . Ht] where [Ht[j,k] = H[k,j]]. *)
Definition zf_fidelity (H Hp : matrix) (n k : nat) : Q :=
  product_entry H Hp n k k.

Definition mmse_fidelity (H R : matrix) (n k : nat) : Q :=
  np.sum_upto (fun j => product_entry H R n k j * entry H k j) n.

(** [sc] holds the fidelity scores of the designer [D] for the convolution
    matrix [H] with [n] columns: for zero forcing from the pseudo-inverse of
    [H]; for MMSE from the matrix [R] that [np.linalg.inv] returns on
    [H.T @ H + gamma I], whose entry [(i,j)] is the sum of the
    [H[l,i] * H[l,j]] plus [gamma] on the diagonal. *)
Definition fidelity_scores (D : designer) (H : matrix) (n : nat)
  (sc : vector) : Prop :=
  match D with
  | ZF =>
      forall k, (k < length H)%nat ->
                nth k sc 0 == zf_fidelity H (np.pinv H) n k
  | MMSE pow snr =>
      exists gamma NM R,
        pow 10 (- snr / 10) = Some gamma /\
        shape n n NM /\
        (forall i j, (i < n)%nat -> (j < n)%nat ->
           entry NM i j
           == np.sum_upto (fun l => entry H l i * entry H l j) (length H)
              + gamma * (if (i =? j)%nat then 1 else 0)) /\
        np.inv NM = Ok R /\
        forall k, (k < length H)%nat ->
                  nth k sc 0 == mmse_fidelity H R n k
  end.

(** The four Moore-Penrose equations, decided entry by entry: [X] is the
    pseudo-inverse of [A] when [A X A = A], [X A X = X] and both [A X] and
    [X A] are symmetric. *)
Definition veqb (a b : vector) : bool :=
  (length a =? length b)%nat &&
  forallb (fun p => Qeq_bool (fst p) (snd p)) (combine a b).

Definition meqb (A B : matrix) : bool :=
  (length A =? length B)%nat &&
  forallb (fun p => veqb (fst p) (snd p)) (combine A B).

Definition penrose (A X : matrix) : bool :=
  meqb (np.matmul (np.matmul A X) A) A &&
  meqb (np.matmul (np.matmul X A) X) X &&
  meqb (np.transpose (np.matmul A X)) (np.matmul A X) &&
  meqb (np.transpose (np.matmul X A)) (np.matmul X A).

(** [R] is a two-sided inverse of [A]. *)
Definition inverse_of (A R : matrix) : bool :=
  meqb (np.matmul A R) (np.eye (length A)) &&
  meqb (np.matmul R A) (np.eye (length A)).

(** * Theorems *)

(** ** Shapes and entries of the primitives *)

Lemma zeros_ok (n : nat) : np.zeros (Z.of_nat n) = Ok (repeat 0 n).
Proof.
  unfold np.zeros.
  destruct (Z.ltb_spec (Z.of_nat n) 0); [lia|].
  now rewrite Nat2Z.id.
Qed.

Lemma nth_map_seq {A : Type} (f : nat -> A) (n i : nat) (d : A) :
  (i < n)%nat -> nth i (map f (seq 0 n)) d = f i.
Proof.
  intros Hi.
  rewrite (nth_indep _ d (f 0%nat)) by now rewrite length_map, length_seq.
  rewrite (map_nth f), seq_nth; auto.
Qed.

Lemma entry_toeplitz (c r : vector) (i j : nat) :
  (i < length c)%nat -> (j < length r)%nat ->
  entry (np.toeplitz c r) i j =
  if (j <=? i)%nat then nth (i - j) c 0 else nth (j - i) r 0.
Proof.
  intros Hi Hj. unfold entry, np.toeplitz.
  rewrite (nth_map_seq _ _ _ _ Hi).
  now rewrite (nth_map_seq _ _ _ _ Hj).
Qed.

Lemma shape_toeplitz (c r : vector) :
  shape (length c) (length r) (np.toeplitz c r).
Proof.
  split.
  - unfold np.toeplitz. now rewrite length_map, length_seq.
  - unfold np.toeplitz. apply Forall_forall. intros x Hx.
    apply in_map_iff in Hx as (i & <- & _).
    now rewrite length_map, length_seq.
Qed.

Lemma nth_repeat_zero (n k : nat) : nth k (repeat 0 n) 0 = 0.
Proof.
  revert k. induction n; destruct k; simpl; auto.
Qed.

Lemma nth_padded (h : vector) (n k : nat) :
  nth k (h ++ repeat 0 n) 0 = if (k <? length h)%nat then nth k h 0 else 0.
Proof.
  destruct (Nat.ltb_spec k (length h)).
  - now apply app_nth1.
  - rewrite app_nth2 by lia. apply nth_repeat_zero.
Qed.

(** ** The convolution matrix *)

Lemma convMatrix_eq (h : vector) (p : nat) :
  (1 <= length h)%nat -> (1 <= p)%nat ->
  convMatrix h p =
  Ok (np.toeplitz (h ++ repeat 0 (p - 1)) (hd 0 h :: repeat 0 (p - 1))).
Proof.
  intros HL Hp. unfold convMatrix.
  replace (Z.of_nat p - 1)%Z with (Z.of_nat (p - 1)) by lia.
  rewrite zeros_ok. simpl.
  destruct h as [|x h]; [simpl in HL; lia|].
  reflexivity.
Qed.

Lemma convMatrix_shape (h : vector) (p : nat) (H : matrix) :
  convMatrix h p = Ok H ->
  (1 <= length h)%nat /\ (1 <= p)%nat /\ shape (length h + p - 1) p H.
Proof.
  unfold convMatrix, np.zeros. intros E.
  destruct (Z.ltb_spec (Z.of_nat p - 1) 0); [discriminate|].
  simpl in E.
  destruct h as [|x h]; [discriminate|].
  simpl in E. injection E as <-.
  split; [simpl; lia|]. split; [lia|].
  pose proof (shape_toeplitz (np.hstack (x :: h) (repeat 0 (Z.to_nat (Z.of_nat p - 1))))
                (np.hstack [x] (repeat 0 (Z.to_nat (Z.of_nat p - 1))))) as Sh.
  unfold np.hstack in *.
  rewrite !length_app, !repeat_length in Sh. simpl length in *.
  replace (S (length h) + Z.to_nat (Z.of_nat p - 1))%nat
    with (S (length h) + p - 1)%nat in Sh by lia.
  replace (1 + Z.to_nat (Z.of_nat p - 1))%nat with p in Sh by lia.
  exact Sh.
Qed.

Lemma convMatrix_entry (h : vector) (p i j : nat) (H : matrix) :
  convMatrix h p = Ok H ->
  (i < length h + p - 1)%nat -> (j < p)%nat ->
  entry H i j =
  if ((j <=? i) && (i - j <? length h))%nat then nth (i - j) h 0 else 0.
Proof.
  intros E Hi Hj.
  destruct (convMatrix_shape _ _ _ E) as (HL & Hp & _).
  rewrite convMatrix_eq in E by assumption. injection E as <-.
  rewrite entry_toeplitz.
  - destruct (Nat.leb_spec j i); simpl.
    + apply nth_padded.
    + destruct (j - i)%nat as [|k] eqn:K; [lia|].
      simpl. apply nth_repeat_zero.
  - rewrite length_app, repeat_length. lia.
  - simpl. rewrite repeat_length. lia.
Qed.

(** C4. For an impulse response [h] of length [L >= 1] and [p >= 1] columns,
    [convMatrix h p] returns a matrix with [L+p-1] rows and [p] columns;
    its first column is [h] followed by [p-1] zeros; it is constant along
    its diagonals; and its entry [(i,j)] is [h[i-j]] when [0 <= i-j < L]
    and [0] otherwise. *)
Theorem convMatrix_toeplitz (h : vector) (p : nat) :
  (1 <= length h)%nat -> (1 <= p)%nat ->
  exists H,
    convMatrix h p = Ok H /\
    shape (length h + p - 1) p H /\
    np.col 0 H = h ++ repeat 0 (p - 1) /\
    (forall i j, (i + 1 < length h + p - 1)%nat -> (j + 1 < p)%nat ->
                 entry H (i + 1) (j + 1) = entry H i j) /\
    (forall i j, (i < length h + p - 1)%nat -> (j < p)%nat ->
                 entry H i j =
                 if ((j <=? i) && (i - j <? length h))%nat
                 then nth (i - j) h 0 else 0).
Proof.
  intros HL Hp.
  destruct (convMatrix h p) as [H|e] eqn:E;
    [|rewrite convMatrix_eq in E by assumption; discriminate].
  exists H. split; [reflexivity|].
  destruct (convMatrix_shape _ _ _ E) as (_ & _ & Sh).
  split; [exact Sh|]. split; [|split].
  - apply nth_ext with (d := 0) (d' := 0).
    + unfold np.col. destruct Sh as [Sh _].
      rewrite length_map, length_app, repeat_length.
      lia.
    + intros i Hi. unfold np.col in *. rewrite length_map in Hi.
      destruct Sh as [Sh _]. rewrite Sh in Hi.
      rewrite (nth_indep _ 0 (nth 0 [] 0)) by (rewrite length_map; lia).
      rewrite (map_nth (fun r => nth 0 r 0)).
      change (entry H i 0 = nth i (h ++ repeat 0 (p - 1)) 0).
      rewrite (convMatrix_entry _ _ _ _ _ E) by lia.
      rewrite nth_padded, Nat.sub_0_r. reflexivity.
  - intros i j Hi Hj.
    rewrite !(convMatrix_entry _ _ _ _ _ E) by lia.
    replace (i + 1 - (j + 1))%nat with (i - j)%nat by lia.
    destruct (Nat.leb_spec j i), (Nat.leb_spec (j + 1) (i + 1));
      try lia; reflexivity.
  - intros i j Hi Hj. now apply (convMatrix_entry _ _ _ _ _ E).
Qed.

Lemma convMatrix_toeplitz_witness :
  (1 <= length [1; 0.5]%Q)%nat /\ (1 <= 2)%nat /\
  exists H,
    convMatrix [1; 0.5] 2 = Ok H /\
    shape 3 2 H /\
    np.col 0 H = [1; 0.5] ++ repeat 0 1.
Proof.
  assert (HL : (1 <= length [1; 0.5]%Q)%nat) by (simpl; lia).
  assert (Hp : (1 <= 2)%nat) by lia.
  split; [exact HL|]. split; [exact Hp|].
  destruct (convMatrix_toeplitz [1; 0.5] 2 HL Hp)
    as (H & E & Sh & Hcol & _).
  exists H. auto.
Defined.

(** ** Finite sums *)

Lemma sum_upto_ext (f g : nat -> Q) (n : nat) :
  (forall k, (k < n)%nat -> f k == g k) ->
  np.sum_upto f n == np.sum_upto g n.
Proof.
  induction n as [|n IH]; intros E; simpl; [reflexivity|].
  rewrite IH, (E n) by (intros; auto with arith). reflexivity.
Qed.

Lemma sum_upto_tail (f : nat -> Q) (n m : nat) :
  (n <= m)%nat ->
  (forall k, (n <= k < m)%nat -> f k == 0) ->
  np.sum_upto f m == np.sum_upto f n.
Proof.
  induction 1 as [|m Hle IH]; intros Z; [reflexivity|].
  simpl. rewrite IH, (Z m) by (intros; try apply Z; lia). ring.
Qed.

Lemma sum_upto_shift (f : nat -> Q) (n : nat) :
  np.sum_upto f (S n) == f 0%nat + np.sum_upto (fun k => f (S k)) n.
Proof.
  induction n as [|n IH]; [simpl; ring|].
  change (np.sum_upto f (S (S n))) with (np.sum_upto f (S n) + f (S n)).
  rewrite IH. simpl. ring.
Qed.

Lemma sum_upto_rev (f : nat -> Q) (n : nat) :
  np.sum_upto f n == np.sum_upto (fun k => f (n - 1 - k)%nat) n.
Proof.
  revert f. induction n as [|n IH]; intros f; [reflexivity|].
  rewrite sum_upto_shift. simpl np.sum_upto at 2.
  rewrite (IH (fun k => f (S k))).
  replace (S n - 1 - n)%nat with 0%nat by lia.
  rewrite (sum_upto_ext (fun k => f (S n - 1 - k)%nat)
                        (fun k => f (S (n - 1 - k)))).
  - replace (n - 0 - n)%nat with 0%nat by lia. ring.
  - intros k Hk. replace (S n - 1 - k)%nat with (S (n - 1 - k)) by lia.
    reflexivity.
Qed.

Lemma dot_sum_upto (r x : vector) (n : nat) :
  (Nat.min (length r) (length x) <= n)%nat ->
  np.dot r x == np.sum_upto (fun j => nth j r 0 * nth j x 0) n.
Proof.
  revert x n. induction r as [|a r IH]; intros x n Hn.
  - simpl. rewrite (sum_upto_tail _ 0 n); [reflexivity|lia|].
    intros k _. destruct k; simpl; ring.
  - destruct x as [|b x].
    + simpl. rewrite (sum_upto_tail _ 0 n); [reflexivity|lia|].
      intros k _. destruct k; simpl; ring.
    + destruct n as [|n]; [simpl in Hn; lia|].
      rewrite sum_upto_shift. simpl.
      rewrite (IH x n) by (simpl in Hn; lia). reflexivity.
Qed.

Lemma veq_nth (a b : vector) :
  length a = length b ->
  (forall i, (i < length a)%nat -> nth i a 0 == nth i b 0) ->
  veq a b.
Proof.
  revert b. induction a as [|x a IH]; intros [|y b] L E; try discriminate.
  - constructor.
  - constructor.
    + apply (E 0%nat). simpl. lia.
    + apply IH; [simpl in L; lia|].
      intros i Hi. apply (E (S i)). simpl. lia.
Qed.

(** A convolution sum cut at the length of its first operand, or written
    over [0..n], is the same sum. *)
Lemma conv_at_sum (a v : vector) (n : nat) :
  np.conv_at a v n == conv_sum a v n.
Proof.
  unfold np.conv_at, conv_sum.
  set (g := fun m => if (m <=? n)%nat then nth m a 0 * nth (n - m) v 0 else 0).
  transitivity (np.sum_upto g (Nat.max (length a) (S n))).
  - symmetry. apply sum_upto_tail; [lia|].
    intros k Hk. unfold g. rewrite (nth_overflow a) by lia.
    destruct (k <=? n)%nat; ring.
  - transitivity (np.sum_upto g (S n)).
    + apply sum_upto_tail; [lia|].
      intros k Hk. unfold g. destruct (Nat.leb_spec k n); [lia|reflexivity].
    + apply sum_upto_ext. intros k Hk. unfold g, conv_term.
      destruct (Nat.leb_spec k n); [reflexivity|lia].
Qed.

Lemma conv_sum_comm (x y : vector) (n : nat) :
  conv_sum x y n == conv_sum y x n.
Proof.
  unfold conv_sum. rewrite sum_upto_rev.
  apply sum_upto_ext. intros k Hk. unfold conv_term.
  replace (S n - 1 - k)%nat with (n - k)%nat by lia.
  replace (n - (n - k))%nat with k by lia. ring.
Qed.

(** C5. For an impulse response [h] of length [L >= 1], [p >= 1] and a
    vector [x] of length [p], the product of [convMatrix h p] with [x] is the
    full linear convolution of [h] and [x], a vector of length [L+p-1]. *)
Theorem convMatrix_matvec (h x : vector) (p : nat) :
  (1 <= length h)%nat -> (1 <= p)%nat -> length x = p ->
  exists H,
    convMatrix h p = Ok H /\
    length (np.matvec H x) = (length h + p - 1)%nat /\
    veq (np.matvec H x) (full_convolution h x).
Proof.
  intros HL Hp Hx.
  destruct (convMatrix h p) as [H|e] eqn:E;
    [|rewrite convMatrix_eq in E by assumption; discriminate].
  destruct (convMatrix_shape _ _ _ E) as (_ & _ & [Hr Hc]).
  pose proof (convMatrix_entry h p) as Hent.
  exists H. split; [reflexivity|].
  assert (Hlen : length (np.matvec H x) = (length h + p - 1)%nat)
    by (unfold np.matvec; now rewrite length_map).
  split; [exact Hlen|].
  apply veq_nth.
  - unfold full_convolution. rewrite Hlen, length_map, length_seq. lia.
  - intros i Hi. rewrite Hlen in Hi.
    unfold full_convolution. rewrite nth_map_seq by lia.
    unfold np.matvec.
    rewrite (nth_indep _ 0 (np.dot [] x)) by (rewrite length_map; lia).
    rewrite (map_nth (fun r => np.dot r x)).
    rewrite (dot_sum_upto _ _ p) by lia.
    rewrite conv_sum_comm, <- conv_at_sum. unfold np.conv_at. rewrite Hx.
    apply sum_upto_ext. intros j Hj.
    change (nth j (nth i H []) 0) with (entry H i j).
    rewrite (Hent i j H E) by lia.
    destruct (Nat.leb_spec j i); simpl.
    + destruct (Nat.ltb_spec (i - j) (length h)); [ring|].
      rewrite (nth_overflow h) by lia. ring.
    + ring.
Qed.

(** ** [np.argmax] returns the first maximum *)

Lemma argmax_from_first_max (l pre : vector) (best : Q) (bi : nat) :
  first_max pre bi -> nth bi pre 0 = best ->
  first_max (pre ++ l) (np.argmax_from best bi (length pre) l).
Proof.
  revert pre best bi. induction l as [|x l IH]; intros pre best bi F B.
  - simpl. now rewrite app_nil_r.
  - simpl. destruct F as (Hb & Hmax & Hfirst).
    replace (pre ++ x :: l) with ((pre ++ [x]) ++ l)
      by (now rewrite <- app_assoc).
    replace (S (length pre)) with (length (pre ++ [x]))
      by (rewrite length_app; simpl; lia).
    destruct (Qle_bool x best) eqn:C.
    + apply Qle_bool_iff in C. apply IH.
      * split; [rewrite length_app; simpl; lia|]. split.
        -- intros j Hj. rewrite length_app in Hj. simpl in Hj.
           rewrite (app_nth1 pre [x] 0 Hb).
           destruct (Nat.eq_dec j (length pre)) as [->|Hne].
           ++ rewrite app_nth2, Nat.sub_diag by lia. simpl. now rewrite B.
           ++ rewrite app_nth1 by lia. apply Hmax. lia.
        -- intros j Hj. rewrite (app_nth1 pre [x] 0 Hb).
           rewrite app_nth1 by lia. now apply Hfirst.
      * now rewrite app_nth1.
    + assert (Hlt : best < x).
      { apply Qnot_le_lt. intros Hle. apply Qle_bool_iff in Hle. congruence. }
      assert (Hx : nth (length pre) (pre ++ [x]) 0 = x)
        by (now rewrite app_nth2, Nat.sub_diag by lia).
      apply IH; [|exact Hx].
      split; [rewrite length_app; simpl; lia|]. rewrite Hx. split.
      * intros j Hj. rewrite length_app in Hj. simpl in Hj.
        destruct (Nat.eq_dec j (length pre)) as [->|Hne].
        -- rewrite Hx. apply Qle_refl.
        -- rewrite app_nth1 by lia. apply Qlt_le_weak.
           apply Qle_lt_trans with (y := best); [|exact Hlt].
           rewrite <- B. apply Hmax. lia.
      * intros j Hj. rewrite app_nth1 by lia.
        apply Qle_lt_trans with (y := best); [|exact Hlt].
        rewrite <- B. apply Hmax. lia.
Qed.

Lemma argmax_first_max (l : vector) :
  l <> [] -> exists i, np.argmax l = Ok i /\ first_max l i.
Proof.
  destruct l as [|x l]; [congruence|]. intros _.
  exists (np.argmax_from x 0 1 l). split; [reflexivity|].
  apply (argmax_from_first_max l [x] x 0%nat); [|reflexivity].
  split; [simpl; lia|]. split.
  - intros j Hj. simpl in Hj. replace j with 0%nat by lia. apply Qle_refl.
  - intros j Hj. lia.
Qed.

(** ** Shapes of products, transposes and pseudo-inverses *)

Lemma length_vadd (a b : vector) :
  length (np.vadd a b) = Nat.min (length a) (length b).
Proof.
  revert b. induction a as [|x a IH]; intros [|y b]; simpl; auto.
Qed.

Lemma length_vsub (a b : vector) :
  length (np.vsub a b) = Nat.min (length a) (length b).
Proof.
  revert b. induction a as [|x a IH]; intros [|y b]; simpl; auto.
Qed.

Lemma length_vscale (c : Q) (a : vector) : length (np.vscale c a) = length a.
Proof. apply length_map. Qed.

Lemma length_lincomb (m : nat) (cs : vector) (vs : list vector) :
  Forall (fun v => length v = m) vs -> length (np.lincomb m cs vs) = m.
Proof.
  unfold np.lincomb. revert cs.
  induction vs as [|v vs IH]; intros cs F.
  - destruct cs; simpl; apply repeat_length.
  - destruct cs as [|c cs]; simpl; [apply repeat_length|].
    inversion F; subst.
    rewrite length_vadd, length_vscale, IH by assumption. lia.
Qed.

Lemma shape_greville (m : nat) (cols : list vector) :
  Forall (fun v => length v = m) cols ->
  shape (length cols) m (np.greville m cols).
Proof.
  induction cols as [|a prev IH]; intros F.
  - split; [reflexivity|constructor].
  - inversion F as [|? ? Ha Hprev]; subst.
    destruct (IH Hprev) as [HlenP HrowsP].
    set (P := np.greville (length a) prev) in *.
    assert (Hb : length
      (if np.is_zero (np.vsub a (np.lincomb (length a) (np.matvec P a) prev))
       then np.vscale (/ (1 + np.dot (np.matvec P a) (np.matvec P a)))
                      (np.lincomb (length a) (np.matvec P a) P)
       else np.vscale
              (/ np.dot (np.vsub a (np.lincomb (length a) (np.matvec P a) prev))
                        (np.vsub a (np.lincomb (length a) (np.matvec P a) prev)))
              (np.vsub a (np.lincomb (length a) (np.matvec P a) prev)))
      = length a).
    { destruct (np.is_zero _).
      - now rewrite length_vscale, length_lincomb.
      - rewrite length_vscale, length_vsub, length_lincomb by assumption. lia. }
    split.
    + simpl. fold P. rewrite length_map, length_combine.
      unfold np.matvec. rewrite length_map. lia.
    + simpl. fold P. constructor; [exact Hb|].
      apply Forall_forall. intros r Hr.
      apply in_map_iff in Hr as ([p dj] & <- & Hin).
      apply in_combine_l in Hin. simpl.
      rewrite length_vsub, length_vscale, Hb.
      rewrite Forall_forall in HrowsP. rewrite (HrowsP p Hin). lia.
Qed.

Lemma shape_transpose (m n : nat) (A : matrix) :
  shape m n A -> (1 <= m)%nat -> shape n m (np.transpose A).
Proof.
  intros [Hm Hrows] Hpos. unfold np.transpose, np.ncols.
  destruct A as [|r A]; [simpl in Hm; lia|]. simpl hd.
  inversion Hrows; subst. split.
  - now rewrite length_map, length_seq.
  - apply Forall_forall. intros c Hc.
    apply in_map_iff in Hc as (j & <- & _).
    unfold np.col. now rewrite length_map.
Qed.

Lemma shape_pinv (m n : nat) (A : matrix) :
  shape m n A -> (1 <= m)%nat -> shape n m (np.pinv A).
Proof.
  intros Sh Hpos. destruct (shape_transpose _ _ _ Sh Hpos) as [Hl Hr].
  unfold np.pinv. destruct Sh as [Hm _]. rewrite Hm.
  destruct (shape_greville m (rev (np.transpose A))) as [Hl' Hr'].
  - apply Forall_forall. intros v Hv. apply in_rev in Hv.
    rewrite Forall_forall in Hr. now apply Hr.
  - split.
    + now rewrite length_rev, Hl', length_rev.
    + apply Forall_forall. intros v Hv. apply in_rev in Hv.
      rewrite Forall_forall in Hr'. now apply Hr'.
Qed.

Lemma ncols_shape (m n : nat) (A : matrix) :
  shape m n A -> (1 <= m)%nat -> np.ncols A = n.
Proof.
  intros [Hm Hrows] Hpos. unfold np.ncols.
  destruct A as [|r A]; [simpl in Hm; lia|].
  now inversion Hrows.
Qed.

Lemma shape_matmul (m k : nat) (A B : matrix) :
  length A = m -> np.ncols B = k -> shape m k (np.matmul A B).
Proof.
  intros Hm Hk. unfold np.matmul. split.
  - now rewrite length_map.
  - apply Forall_forall. intros r Hr.
    apply in_map_iff in Hr as (r0 & <- & _).
    unfold np.vecmat. now rewrite length_map, length_seq.
Qed.

Lemma length_diag (m : nat) (A : matrix) :
  shape m m A -> (1 <= m)%nat -> length (np.diag A) = m.
Proof.
  intros Sh Hpos. unfold np.diag.
  rewrite length_map, length_seq, (ncols_shape _ _ _ Sh Hpos).
  destruct Sh as [-> _]. lia.
Qed.

(** ** [np.linalg.inv] returns on every non-singular matrix *)

Lemma dot_vscale_l (c : Q) (a y : vector) :
  np.dot (np.vscale c a) y == c * np.dot a y.
Proof.
  revert y. induction a as [|x a IH]; intros [|z y]; simpl; try ring.
  unfold np.vscale in IH. rewrite IH. ring.
Qed.

Lemma dot_vsub_l (a b y : vector) :
  length a = length b ->
  np.dot (np.vsub a b) y == np.dot a y - np.dot b y.
Proof.
  revert b y. induction a as [|x a IH]; intros [|z b] y L; try discriminate.
  - simpl. ring.
  - destruct y as [|t y]; simpl; [ring|].
    rewrite IH by (simpl in L; lia). ring.
Qed.

Lemma dot_zeros_r (a : vector) (k : nat) : np.dot a (repeat 0 k) == 0.
Proof.
  revert k. induction a as [|x a IH]; intros [|k]; simpl; try reflexivity.
  rewrite IH. ring.
Qed.

Lemma pick_pivot_none (rows : list np.arow) :
  np.pick_pivot rows = None ->
  Forall (fun r => hd 0 (fst r) == 0) rows.
Proof.
  induction rows as [|r rows IH]; intros E; [constructor|].
  simpl in E. destruct (Qeq_bool (hd 0 (fst r)) 0) eqn:C.
  - constructor; [now apply Qeq_bool_iff|].
    apply IH. destruct (np.pick_pivot rows) as [[p rest]|]; [discriminate|].
    reflexivity.
  - discriminate.
Qed.

Lemma pick_pivot_some (rows others : list np.arow) (p : np.arow) :
  np.pick_pivot rows = Some (p, others) ->
  ~ hd 0 (fst p) == 0 /\
  length rows = S (length others) /\
  (forall r, In r rows <-> r = p \/ In r others).
Proof.
  revert others. induction rows as [|r rows IH]; intros others E;
    [discriminate|].
  simpl in E. destruct (Qeq_bool (hd 0 (fst r)) 0) eqn:C.
  - destruct (np.pick_pivot rows) as [[p' rest]|]; [|discriminate].
    injection E as -> <-.
    destruct (IH rest eq_refl) as (Hp & Hlen & Hin).
    split; [exact Hp|]. split; [simpl; lia|].
    intros r0. simpl. rewrite Hin. intuition congruence.
  - injection E as -> ->. split; [now apply Qeq_bool_neq|].
    split; [reflexivity|]. intros r0. simpl. intuition congruence.
Qed.

Lemma gauss_returns (n : nat) (rows : list np.arow) :
  Forall (fun r => length (fst r) = n) rows ->
  nonsingular n (map fst rows) ->
  exists X, np.gauss n rows = Some X.
Proof.
  revert rows. induction n as [|n IH]; intros rows Hlen Hns.
  - exists []. reflexivity.
  - simpl. destruct (np.pick_pivot rows) as [[p others]|] eqn:P.
    + destruct (pick_pivot_some _ _ _ P) as (Hc & _ & Hin).
      set (c := hd 0 (fst p)) in *.
      set (pl := np.vscale (/ c) (tl (fst p))).
      set (pr := np.vscale (/ c) (snd p)).
      rewrite Forall_forall in Hlen.
      assert (Hp : length (fst p) = S n) by (apply Hlen, Hin; now left).
      assert (Hpl : length pl = n).
      { unfold pl. rewrite length_vscale.
        destruct (fst p); simpl in *; [discriminate|lia]. }
      destruct (IH (map (np.eliminate pl pr) others)) as [X ->].
      * apply Forall_forall. intros r Hr.
        apply in_map_iff in Hr as (r0 & <- & Hr0).
        assert (Hr0' : length (fst r0) = S n) by (apply Hlen, Hin; now right).
        unfold np.eliminate. simpl.
        rewrite length_vsub, length_vscale, Hpl.
        destruct (fst r0); simpl in *; [discriminate|lia].
      * intros y Hy Hzero.
        assert (Hx : Forall (fun v => v == 0) ((- np.dot pl y) :: y)).
        { apply Hns; [simpl; lia|].
          apply Forall_forall. intros l Hl.
          apply in_map_iff in Hl as (r & <- & Hr).
          apply Hin in Hr as [->|Hr].
          - fold c in Hc. unfold c in *.
            destruct (fst p) as [|c0 t] eqn:Ep; [discriminate|].
            simpl in Hc |- *. unfold pl. simpl.
            rewrite dot_vscale_l. field. exact Hc.
          - assert (Hr' : length (fst r) = S n) by (apply Hlen, Hin; now right).
            rewrite Forall_forall in Hzero.
            specialize (Hzero (fst (np.eliminate pl pr r))).
            assert (Hz : np.dot (fst (np.eliminate pl pr r)) y == 0).
            { apply Hzero. rewrite map_map. apply in_map_iff.
              exists r. split; [reflexivity|exact Hr]. }
            unfold np.eliminate in Hz. simpl in Hz.
            destruct (fst r) as [|f t] eqn:Er; [discriminate|].
            simpl in Hz, Hr' |- *.
            rewrite dot_vsub_l in Hz
              by (rewrite length_vscale, Hpl; lia).
            rewrite dot_vscale_l in Hz.
            rewrite <- Hz. ring. }
        now inversion Hx.
      * eexists. reflexivity.
    + exfalso.
      pose proof (pick_pivot_none _ P) as Hz.
      assert (Hx : Forall (fun v => v == 0) (1 :: repeat 0 n)).
      { apply Hns; [simpl; now rewrite repeat_length|].
        apply Forall_forall. intros l Hl.
        apply in_map_iff in Hl as (r & <- & Hr).
        rewrite Forall_forall in Hz, Hlen.
        specialize (Hz r Hr). specialize (Hlen r Hr).
        destruct (fst r) as [|f t]; [discriminate|].
        simpl in Hz |- *. rewrite Hz, dot_zeros_r. ring. }
      inversion Hx as [|? ? H1 _]. discriminate H1.
Qed.

Lemma map_fst_combine {A B : Type} (l : list A) (l' : list B) :
  length l = length l' -> map fst (combine l l') = l.
Proof.
  revert l'. induction l as [|a l IH]; intros [|b l'] E; try discriminate.
  - reflexivity.
  - simpl. f_equal. apply IH. simpl in E. lia.
Qed.

Lemma inv_returns (n : nat) (A : matrix) :
  shape n n A -> nonsingular n A -> exists R, np.inv A = Ok R.
Proof.
  intros [Hn Hrows] Hns. unfold np.inv. rewrite Hn.
  assert (Hsq : forallb (fun r => (length r =? n)%nat) A = true).
  { apply forallb_forall. intros r Hr. rewrite Forall_forall in Hrows.
    apply Nat.eqb_eq. now apply Hrows. }
  rewrite Hsq.
  assert (Hfst : map fst (combine A (np.eye n)) = A).
  { apply map_fst_combine. unfold np.eye.
    now rewrite length_map, length_seq. }
  destruct (gauss_returns n (combine A (np.eye n))) as [X ->].
  - apply Forall_forall. intros r Hr.
    rewrite Forall_forall in Hrows. apply Hrows.
    rewrite <- Hfst. now apply in_map.
  - now rewrite Hfst.
  - eexists. reflexivity.
Qed.

(** ** The regularised normal matrix is non-singular *)

Lemma sum_upto_plus (f g : nat -> Q) (n : nat) :
  np.sum_upto (fun k => f k + g k) n == np.sum_upto f n + np.sum_upto g n.
Proof.
  induction n as [|n IH]; simpl; [ring|]. rewrite IH. ring.
Qed.

Lemma sum_upto_scale (c : Q) (f : nat -> Q) (n : nat) :
  np.sum_upto (fun k => c * f k) n == c * np.sum_upto f n.
Proof.
  induction n as [|n IH]; simpl; [ring|]. rewrite IH. ring.
Qed.

Lemma sum_upto_nonneg (f : nat -> Q) (n : nat) :
  (forall k, (k < n)%nat -> 0 <= f k) -> 0 <= np.sum_upto f n.
Proof.
  induction n as [|n IH]; intros P; simpl; [apply Qle_refl|].
  assert (0 <= np.sum_upto f n) by (apply IH; intros; apply P; lia).
  assert (0 <= f n) by (apply P; lia).
  lra.
Qed.

Lemma sum_upto_zero_inv (f : nat -> Q) (n : nat) :
  (forall k, (k < n)%nat -> 0 <= f k) ->
  np.sum_upto f n == 0 ->
  forall k, (k < n)%nat -> f k == 0.
Proof.
  induction n as [|n IH]; intros P E k Hk; [lia|].
  simpl in E.
  assert (0 <= np.sum_upto f n) by (apply sum_upto_nonneg; intros; apply P; lia).
  assert (0 <= f n) by (apply P; lia).
  destruct (Nat.eq_dec k n) as [->|Hne]; [lra|].
  apply IH; [intros; apply P; lia|lra|lia].
Qed.

Lemma sum_upto_delta (f : nat -> Q) (i n : nat) :
  (i < n)%nat ->
  np.sum_upto (fun j => (if (i =? j)%nat then 1 else 0) * f j) n == f i.
Proof.
  induction n as [|n IH]; intros Hi; [lia|].
  simpl. destruct (Nat.eqb_spec i n) as [->|Hne].
  - rewrite (sum_upto_tail _ 0 n); [simpl; ring|lia|].
    intros k Hk. destruct (Nat.eqb_spec n k); [lia|ring].
  - rewrite IH by lia. ring.
Qed.

Lemma gram_cons (r : vector) (A : matrix) (i j : nat) :
  gram (r :: A) i j = nth i r 0 * nth j r 0 + gram A i j.
Proof. reflexivity. Qed.

(** The quadratic form of [A.T @ A] is a sum of squares. *)
Lemma gram_form_nonneg (A : matrix) (x : vector) (n : nat) :
  0 <= np.sum_upto
         (fun i => nth i x 0 *
                   np.sum_upto (fun j => gram A i j * nth j x 0) n) n.
Proof.
  induction A as [|r A IH].
  - apply sum_upto_nonneg. intros i _.
    rewrite (sum_upto_ext _ (fun _ => 0 * 0))
      by (intros; unfold gram; simpl; ring).
    rewrite sum_upto_scale. lra.
  - set (s := np.sum_upto (fun j => nth j r 0 * nth j x 0) n).
    set (q := np.sum_upto
                (fun i => nth i x 0 *
                          np.sum_upto (fun j => gram A i j * nth j x 0) n) n)
      in *.
    assert (E : np.sum_upto
                  (fun i => nth i x 0 *
                            np.sum_upto
                              (fun j => gram (r :: A) i j * nth j x 0) n) n
                == s * s + q).
    { rewrite (sum_upto_ext _
                 (fun i => s * (nth i r 0 * nth i x 0) +
                           nth i x 0 *
                           np.sum_upto (fun j => gram A i j * nth j x 0) n)).
      - rewrite sum_upto_plus, sum_upto_scale. reflexivity.
      - intros i _.
        rewrite (sum_upto_ext _
                   (fun j => nth i r 0 * (nth j r 0 * nth j x 0) +
                             gram A i j * nth j x 0))
          by (intros; rewrite gram_cons; ring).
        rewrite sum_upto_plus, sum_upto_scale. fold s. ring. }
    rewrite E. nra.
Qed.

Lemma length_madd (A B : matrix) :
  length (np.madd A B) = Nat.min (length A) (length B).
Proof.
  revert B. induction A as [|r A IH]; intros [|s B]; simpl; auto.
Qed.

Lemma nth_madd (A B : matrix) (i : nat) :
  (i < length A)%nat -> (i < length B)%nat ->
  nth i (np.madd A B) [] = np.vadd (nth i A []) (nth i B []).
Proof.
  revert B i. induction A as [|r A IH]; intros [|s B] i HA HB;
    simpl in *; try lia.
  destruct i; [reflexivity|]. apply IH; lia.
Qed.

Lemma nth_vadd (a b : vector) (j : nat) :
  length a = length b ->
  nth j (np.vadd a b) 0 == nth j a 0 + nth j b 0.
Proof.
  revert b j. induction a as [|x a IH]; intros [|y b] j L; try discriminate.
  - destruct j; simpl; ring.
  - destruct j; simpl; [ring|]. apply IH. simpl in L. lia.
Qed.

Lemma nth_vscale (c : Q) (a : vector) (j : nat) :
  nth j (np.vscale c a) 0 == c * nth j a 0.
Proof.
  revert j. induction a as [|x a IH]; intros [|j]; simpl; try ring.
  apply IH.
Qed.

Section NormalMatrix.

Variables (m n : nat) (H : matrix) (gamma : Q).
Hypothesis Hshape : shape m n H.
Hypothesis Hm : (1 <= m)%nat.

Lemma normal_matrix_shape :
  shape n n (np.madd (np.matmul (np.transpose H) H) (np.mscale gamma (np.eye n))).
Proof.
  set (NM := np.madd _ _).
  pose proof (ncols_shape _ _ _ Hshape Hm) as Hc.
  assert (HlenG : length (np.matmul (np.transpose H) H) = n).
  { unfold np.matmul, np.transpose.
    now rewrite !length_map, length_seq. }
  assert (HlenE : length (np.mscale gamma (np.eye n)) = n).
  { unfold np.mscale, np.eye. now rewrite !length_map, length_seq. }
  split.
  - unfold NM. rewrite length_madd, HlenG, HlenE. lia.
  - apply Forall_forall. intros r Hr.
    apply (In_nth _ _ []) in Hr as (i & Hi & <-).
    unfold NM in Hi |- *. rewrite length_madd, HlenG, HlenE in Hi.
    rewrite nth_madd by lia.
    rewrite length_vadd.
    unfold np.matmul, np.mscale, np.eye, np.transpose.
    rewrite Hc.
    rewrite (nth_indep _ [] (np.vecmat [] H))
      by (rewrite !length_map, length_seq; lia).
    rewrite (map_nth (fun r => np.vecmat r H)).
    rewrite (nth_indep (map (np.vscale gamma) _) []
                       (np.vscale gamma []))
      by (rewrite !length_map, length_seq; lia).
    rewrite (map_nth (np.vscale gamma)).
    rewrite length_vscale. rewrite !nth_map_seq by lia.
    unfold np.vecmat. rewrite !length_map, !length_seq, Hc. lia.
Qed.

Lemma normal_matrix_entry (i j : nat) :
  (i < n)%nat -> (j < n)%nat ->
  entry (np.madd (np.matmul (np.transpose H) H) (np.mscale gamma (np.eye n))) i j
  == gram H i j + gamma * (if (i =? j)%nat then 1 else 0).
Proof.
  intros Hi Hj. set (NM := np.madd _ _).
  pose proof (ncols_shape _ _ _ Hshape Hm) as Hc.
  unfold entry, NM.
  rewrite nth_madd
    by (unfold np.matmul, np.transpose, np.mscale, np.eye;
        rewrite !length_map, length_seq; lia).
  unfold np.matmul, np.mscale, np.eye, np.transpose. rewrite Hc.
  rewrite (nth_indep _ [] (np.vecmat [] H))
    by (rewrite !length_map, length_seq; lia).
  rewrite (map_nth (fun r => np.vecmat r H)).
  rewrite (nth_indep (map (np.vscale gamma) _) [] (np.vscale gamma []))
    by (rewrite !length_map, length_seq; lia).
  rewrite (map_nth (np.vscale gamma)).
  rewrite !nth_map_seq by lia.
  rewrite nth_vadd
    by (unfold np.vecmat; rewrite length_vscale, !length_map, !length_seq;
        lia).
  rewrite nth_vscale. unfold np.vecmat. rewrite Hc.
  rewrite !nth_map_seq by lia. reflexivity.
Qed.

Lemma normal_matrix_nonsingular :
  0 < gamma ->
  nonsingular n (np.madd (np.matmul (np.transpose H) H) (np.mscale gamma (np.eye n))).
Proof.
  set (NM := np.madd _ _).
  intros Hg x Hx Hzero.
  pose proof normal_matrix_entry as Hentry. fold NM in Hentry.
  pose proof normal_matrix_shape as [Hlen Hrows]. fold NM in Hlen, Hrows.
  set (xs := fun i => nth i x 0).
  set (G := fun i => np.sum_upto (fun j => gram H i j * xs j) n).
  assert (Hrow : forall i, (i < n)%nat -> G i + gamma * xs i == 0).
  { intros i Hi. rewrite Forall_forall in Hzero.
    assert (Hin : In (nth i NM []) NM) by (apply nth_In; lia).
    rewrite <- (Hzero _ Hin).
    rewrite (dot_sum_upto _ _ n) by lia.
    rewrite (sum_upto_ext _
               (fun j => gram H i j * xs j +
                         gamma * ((if (i =? j)%nat then 1 else 0) * xs j))).
    - rewrite sum_upto_plus, sum_upto_scale, sum_upto_delta by lia.
      reflexivity.
    - intros j Hj.
      change (nth j (nth i NM []) 0) with (entry NM i j).
      rewrite Hentry by lia. unfold xs. ring. }
  assert (Hsum : np.sum_upto (fun i => xs i * G i) n
                 + gamma * np.sum_upto (fun i => xs i * xs i) n == 0).
  { rewrite <- sum_upto_scale, <- sum_upto_plus.
    rewrite (sum_upto_ext _ (fun _ => 0 * 0)).
    - rewrite sum_upto_scale. ring.
    - intros i Hi. specialize (Hrow i Hi).
      transitivity (xs i * (G i + gamma * xs i)); [ring|].
      rewrite Hrow. ring. }
  pose proof (gram_form_nonneg H x n) as Hq. fold xs in Hq. fold G in Hq.
  assert (Hsq : 0 <= np.sum_upto (fun i => xs i * xs i) n).
  { apply sum_upto_nonneg. intros i _. nra. }
  assert (Hq' : 0 <= np.sum_upto (fun i => xs i * G i) n) by exact Hq.
  assert (Hz : np.sum_upto (fun i => xs i * xs i) n == 0).
  { set (S2 := np.sum_upto (fun i => xs i * xs i) n) in *.
    assert (Hp : 0 <= gamma * S2) by (apply Qmult_le_0_compat; lra).
    assert (Hgs : gamma * S2 == 0) by lra.
    apply Qmult_integral in Hgs as [Hg0|Hs0]; [lra|exact Hs0]. }
  assert (Hall : forall i, (i < n)%nat -> xs i == 0).
  { intros i Hi.
    assert (E : xs i * xs i == 0).
    { apply (sum_upto_zero_inv (fun i => xs i * xs i) n); auto.
      intros k _. nra. }
    nra. }
  apply Forall_forall. intros v Hv.
  apply (In_nth _ _ 0) in Hv as (i & Hi & <-).
  apply Hall. lia.
Qed.

End NormalMatrix.

(** ** The designers, step by step *)

Lemma convMatrix_raises (h : vector) (p : nat) (e : exn) :
  convMatrix h p = Raise e -> e <> InvalidDelay.
Proof.
  unfold convMatrix, np.zeros, np.getitem, InvalidDelay.
  destruct (Z.of_nat p - 1 <? 0)%Z; simpl.
  - intros [= <-]. discriminate.
  - destruct (np.norm_index (length h) 0); simpl; [discriminate|].
    intros [= <-]. discriminate.
Qed.

Lemma setitem_raises (a : vector) (k : Z) (v : Q) (e : exn) :
  np.setitem a k v = Raise e -> e <> InvalidDelay.
Proof.
  unfold np.setitem, InvalidDelay.
  destruct (np.norm_index (length a) k); [discriminate|].
  intros [= <-]. discriminate.
Qed.

Lemma inv_raises (A : matrix) (e : exn) :
  np.inv A = Raise e -> e <> InvalidDelay.
Proof.
  unfold np.inv, InvalidDelay.
  destruct (forallb _ A); [destruct (np.gauss _ _)|];
    try discriminate; intros [= <-]; discriminate.
Qed.

Lemma zf_scores_length (h : vector) (n : nat) (H : matrix) :
  convMatrix h n = Ok H ->
  length (zf_scores H) = (length h + n - 1)%nat.
Proof.
  intros E. destruct (convMatrix_shape _ _ _ E) as (HL & Hn & Sh).
  unfold zf_scores. apply length_diag; [|lia].
  apply shape_matmul; [apply Sh|].
  apply (ncols_shape n); [|lia].
  apply shape_pinv; [exact Sh|lia].
Qed.

Lemma mmse_scores_length (h : vector) (n : nat) (H R : matrix) :
  convMatrix h n = Ok H ->
  length (mmse_scores H R) = (length h + n - 1)%nat.
Proof.
  intros E. destruct (convMatrix_shape _ _ _ E) as (HL & Hn & Sh).
  unfold mmse_scores. apply length_diag; [|lia].
  apply shape_matmul; [unfold np.matmul; rewrite length_map; apply Sh|].
  apply (ncols_shape n); [|lia].
  apply shape_transpose; [exact Sh|lia].
Qed.

Lemma zf_design_no_matrix (h : vector) (delay : option Z) (self : Equalizer)
  (e : exn) :
  convMatrix h (N self) = Raise e ->
  zeroForcing.design h delay self = (Raise e, self).
Proof.
  intros E. unfold zeroForcing.design, bind, lift, self_N. now rewrite E.
Qed.

Lemma zf_design_steps (h : vector) (delay : option Z) (self : Equalizer)
  (H : matrix) :
  convMatrix h (N self) = Ok H ->
  let m := (length h + N self - 1)%nat in
  exists i,
    np.argmax (zf_scores H) = Ok i /\
    first_max (zf_scores H) i /\
    (i < m)%nat /\
    let self1 := mkEqualizer (N self) (w self) (Z.of_nat i) in
    zeroForcing.design h delay self =
    match delay with
    | None => finish m (np.pinv H) (zf_quad H) (Z.of_nat i) self1
    | Some k =>
        if (Z.of_nat m <=? k)%Z then (Raise InvalidDelay, self1)
        else finish m (np.pinv H) (zf_quad H) k self1
    end.
Proof.
  intros E m.
  destruct (convMatrix_shape _ _ _ E) as (HL & Hn & _).
  pose proof (zf_scores_length _ _ _ E) as Hlen. fold m in Hlen.
  destruct (argmax_first_max (zf_scores H)) as (i & Ha & Hf).
  { intros Z. rewrite Z in Hlen. simpl in Hlen. lia. }
  exists i. split; [exact Ha|]. split; [exact Hf|].
  split; [destruct Hf as [Hi _]; lia|].
  unfold zeroForcing.design, bind, lift, self_N, set_opt_delay, set_w, ret,
    raise, finish.
  rewrite E. fold (zf_scores H). rewrite Ha. simpl N.
  replace (Z.of_nat (N self) + Z.of_nat (length h) - 1)%Z with (Z.of_nat m)
    by lia.
  replace (Z.of_nat (length h) + Z.of_nat (N self) - 1)%Z with (Z.of_nat m)
    by lia.
  rewrite zeros_ok.
  destruct delay as [k|].
  - destruct (Z.of_nat m <=? k)%Z; [reflexivity|].
    destruct (np.setitem (repeat 0 m) k 1); reflexivity.
  - destruct (np.setitem (repeat 0 m) (Z.of_nat i) 1); reflexivity.
Qed.

Section MMSESteps.

Variable pow : Q -> Q -> option Q.

Lemma mmse_design_no_matrix (h : vector) (snr : Q) (delay : option Z)
  (self : Equalizer) (e : exn) :
  convMatrix h (N self) = Raise e ->
  MMSEEQ.design pow h snr delay self = (Raise e, self).
Proof.
  intros E. unfold MMSEEQ.design, bind, lift, self_N. now rewrite E.
Qed.

Lemma mmse_design_no_power (h : vector) (snr : Q) (delay : option Z)
  (self : Equalizer) (H : matrix) (e : exn) :
  convMatrix h (N self) = Ok H ->
  MMSEEQ.float_pow pow 10 (- snr / 10) = Raise e ->
  MMSEEQ.design pow h snr delay self = (Raise e, self).
Proof.
  intros E G.
  unfold MMSEEQ.design, bind, lift, self_N. rewrite E. simpl N.
  now rewrite G.
Qed.

Lemma float_pow_raises (x y : Q) (e : exn) :
  MMSEEQ.float_pow pow x y = Raise e -> e <> InvalidDelay.
Proof.
  unfold MMSEEQ.float_pow, InvalidDelay.
  destruct (pow x y); [discriminate|]. intros [= <-]. discriminate.
Qed.

Lemma float_pow_value (x y gamma : Q) :
  pow x y = Some gamma -> MMSEEQ.float_pow pow x y = Ok gamma.
Proof. unfold MMSEEQ.float_pow. now intros ->. Qed.

Lemma mmse_design_no_inverse (h : vector) (snr gamma : Q) (delay : option Z)
  (self : Equalizer) (H : matrix) (e : exn) :
  convMatrix h (N self) = Ok H ->
  MMSEEQ.float_pow pow 10 (- snr / 10) = Ok gamma ->
  np.inv (normal_matrix gamma H) = Raise e ->
  MMSEEQ.design pow h snr delay self = (Raise e, self).
Proof.
  intros E G I. destruct (convMatrix_shape _ _ _ E) as (HL & Hn & Sh).
  unfold normal_matrix in I. rewrite (ncols_shape _ _ _ Sh) in I by lia.
  unfold MMSEEQ.design, bind, lift, self_N. rewrite E. simpl N.
  rewrite G. now rewrite I.
Qed.

Lemma mmse_design_steps (h : vector) (snr gamma : Q) (delay : option Z)
  (self : Equalizer) (H R : matrix) :
  convMatrix h (N self) = Ok H ->
  MMSEEQ.float_pow pow 10 (- snr / 10) = Ok gamma ->
  np.inv (normal_matrix gamma H) = Ok R ->
  let m := (length h + N self - 1)%nat in
  exists i,
    np.argmax (mmse_scores H R) = Ok i /\
    first_max (mmse_scores H R) i /\
    (i < m)%nat /\
    let self1 := mkEqualizer (N self) (w self) (Z.of_nat i) in
    MMSEEQ.design pow h snr delay self =
    let k0 := match delay with None => Z.of_nat i | Some k => k end in
    if (Z.of_nat m <=? k0)%Z then (Raise InvalidDelay, self1)
    else finish m (np.matmul R (np.transpose H)) (mmse_quad H R) k0 self1.
Proof.
  intros E G I m.
  destruct (convMatrix_shape _ _ _ E) as (HL & Hn & Sh).
  pose proof (mmse_scores_length _ _ _ R E) as Hlen. fold m in Hlen.
  destruct (argmax_first_max (mmse_scores H R)) as (i & Ha & Hf).
  { intros Z. rewrite Z in Hlen. simpl in Hlen. lia. }
  exists i. split; [exact Ha|]. split; [exact Hf|].
  split; [destruct Hf as [Hi _]; lia|].
  unfold normal_matrix in I. rewrite (ncols_shape _ _ _ Sh) in I by lia.
  unfold MMSEEQ.design, bind, lift, self_N, set_opt_delay, set_w, ret,
    raise, finish.
  rewrite E. simpl N. rewrite G. rewrite I. fold (mmse_scores H R).
  rewrite Ha. simpl N.
  replace (Z.of_nat (N self) + Z.of_nat (length h) - 1)%Z with (Z.of_nat m)
    by lia.
  replace (Z.of_nat (length h) + Z.of_nat (N self) - 1)%Z with (Z.of_nat m)
    by lia.
  rewrite zeros_ok.
  destruct delay as [k|].
  - destruct (Z.of_nat m <=? k)%Z; [reflexivity|].
    destruct (np.setitem (repeat 0 m) k 1); reflexivity.
  - destruct (Z.of_nat m <=? Z.of_nat i)%Z; [reflexivity|].
    destruct (np.setitem (repeat 0 m) (Z.of_nat i) 1); reflexivity.
Qed.

(** With a positive noise ratio the inversion always returns. *)
Lemma mmse_inverse_exists (h : vector) (n : nat) (gamma : Q) (H : matrix) :
  convMatrix h n = Ok H -> 0 < gamma ->
  exists R, np.inv (normal_matrix gamma H) = Ok R.
Proof.
  intros E Hg. destruct (convMatrix_shape _ _ _ E) as (HL & Hn & Sh).
  unfold normal_matrix. rewrite (ncols_shape _ _ _ Sh) by lia.
  apply (inv_returns n).
  - apply (normal_matrix_shape (length h + n - 1)); [exact Sh|lia].
  - apply (normal_matrix_nonsingular (length h + n - 1)); [exact Sh|lia|exact Hg].
Qed.

End MMSESteps.

(** ** Indexing *)

Lemma norm_index_nonneg (len : nat) (k : Z) :
  (0 <= k < Z.of_nat len)%Z -> np.norm_index len k = Some (Z.to_nat k).
Proof.
  intros Hk. unfold np.norm_index.
  destruct (Z.ltb_spec k (- Z.of_nat len)); [lia|].
  destruct (Z.ltb_spec k 0); [lia|].
  destruct (Z.ltb_spec k (Z.of_nat len)); [reflexivity|lia].
Qed.

Lemma norm_index_negative (len : nat) (k : Z) :
  (- Z.of_nat len <= k < 0)%Z ->
  np.norm_index len k = Some (Z.to_nat (Z.of_nat len + k)).
Proof.
  intros Hk. unfold np.norm_index.
  destruct (Z.ltb_spec k (- Z.of_nat len)); [lia|].
  destruct (Z.ltb_spec k 0); [|lia].
  now rewrite Z.add_comm.
Qed.

Lemma setitem_impulse (m : nat) (k : Z) :
  (0 <= k < Z.of_nat m)%Z ->
  np.setitem (repeat 0 m) k 1 = Ok (unit_impulse m (Z.to_nat k)).
Proof.
  intros Hk. unfold np.setitem.
  now rewrite repeat_length, norm_index_nonneg.
Qed.

Lemma setitem_impulse_negative (m : nat) (k : Z) :
  (- Z.of_nat m <= k < 0)%Z ->
  np.setitem (repeat 0 m) k 1 = Ok (unit_impulse m (Z.to_nat (Z.of_nat m + k))).
Proof.
  intros Hk. unfold np.setitem.
  now rewrite repeat_length, norm_index_negative.
Qed.

Lemma nth_update (a : vector) (i j : nat) (v : Q) :
  (i < length a)%nat ->
  nth j (np.update a i v) 0 = if (j =? i)%nat then v else nth j a 0.
Proof.
  revert i j. induction a as [|x a IH]; intros i j Hi; [simpl in Hi; lia|].
  destruct i, j; simpl; try reflexivity.
  apply IH. simpl in Hi. lia.
Qed.

Lemma unit_impulse_nth (m k j : nat) :
  (k < m)%nat ->
  nth j (unit_impulse m k) 0 = if (j =? k)%nat then 1 else 0.
Proof.
  intros Hk. unfold unit_impulse.
  rewrite nth_update by (now rewrite repeat_length).
  now rewrite nth_repeat_zero.
Qed.

(** ** Both designers at once *)

Lemma finish_raise (m : nat) (W : matrix) (quad : vector -> Q) (k0 : Z)
  (self : Equalizer) (e : exn) :
  fst (finish m W quad k0 self) = Raise e ->
  snd (finish m W quad k0 self) = self /\ e <> InvalidDelay.
Proof.
  unfold finish. destruct (np.setitem (repeat 0 m) k0 1) eqn:E; simpl.
  - discriminate.
  - intros [= <-]. split; [reflexivity|]. now apply setitem_raises in E.
Qed.

Lemma finish_ok (m : nat) (W : matrix) (quad : vector -> Q) (k0 : Z)
  (self : Equalizer) (d : vector) :
  np.setitem (repeat 0 m) k0 1 = Ok d ->
  finish m W quad k0 self =
  (Ok (1 - quad d), mkEqualizer (N self) (np.matvec W d) (opt_delay self)).
Proof. unfold finish. now intros ->. Qed.

Lemma design_early_raise (D : designer) (h : vector) (delay : option Z)
  (self : Equalizer) (e : exn) :
  convMatrix h (N self) = Raise e \/
  (exists H, convMatrix h (N self) = Ok H /\ scores D H = Raise e) ->
  design D h delay self = (Raise e, self) /\ e <> InvalidDelay.
Proof.
  intros [E|(H & E & Sc)].
  - split; [|now apply convMatrix_raises in E].
    destruct D; simpl.
    + now apply zf_design_no_matrix.
    + now apply mmse_design_no_matrix.
  - destruct D as [|pow snr]; simpl in Sc; [discriminate|].
    destruct (MMSEEQ.float_pow pow 10 (- snr / 10)) as [gamma|e0] eqn:G;
      simpl in Sc.
    + destruct (np.inv (normal_matrix gamma H)) as [R|e'] eqn:I;
        simpl in Sc; [discriminate|].
      injection Sc as ->. split; [|now apply inv_raises in I].
      simpl. now apply (mmse_design_no_inverse pow _ _ gamma _ _ H).
    + injection Sc as ->. split; [|now apply float_pow_raises in G].
      simpl. now apply (mmse_design_no_power pow _ _ _ _ H).
Qed.

Lemma design_steps (D : designer) (h : vector) (self : Equalizer)
  (H : matrix) (sc : vector) :
  convMatrix h (N self) = Ok H ->
  scores D H = Ok sc ->
  let m := (length h + N self - 1)%nat in
  exists (i : nat) (W : matrix) (quad : vector -> Q),
    length sc = m /\
    np.argmax sc = Ok i /\
    first_max sc i /\
    solver D H = Ok W /\
    let self1 := mkEqualizer (N self) (w self) (Z.of_nat i) in
    (forall k, (Z.of_nat m <= k)%Z ->
               design D h (Some k) self = (Raise InvalidDelay, self1)) /\
    (forall k, (k < Z.of_nat m)%Z ->
               design D h (Some k) self = finish m W quad k self1) /\
    design D h None self = finish m W quad (Z.of_nat i) self1.
Proof.
  intros E Sc m. destruct D as [|pow snr]; simpl in Sc.
  - injection Sc as <-.
    destruct (zf_design_steps h None self H E) as (i & Ha & Hf & Hi & Hnone).
    exists i, (np.pinv H), (zf_quad H).
    split; [now apply zf_scores_length|].
    split; [exact Ha|]. split; [exact Hf|]. split; [reflexivity|].
    split; [|split].
    + intros k Hk.
      destruct (zf_design_steps h (Some k) self H E) as (i' & Ha' & _ & _ & Hs).
      assert (i' = i) by congruence. subst i'.
      simpl in Hs |- *. rewrite Hs.
      destruct (Z.leb_spec (Z.of_nat (length h + N self - 1)) k);
        [reflexivity|]. fold m in H0. lia.
    + intros k Hk.
      destruct (zf_design_steps h (Some k) self H E) as (i' & Ha' & _ & _ & Hs).
      assert (i' = i) by congruence. subst i'.
      simpl in Hs |- *. rewrite Hs.
      destruct (Z.leb_spec (Z.of_nat (length h + N self - 1)) k);
        [fold m in H0; lia|reflexivity].
    + exact Hnone.
  - destruct (MMSEEQ.float_pow pow 10 (- snr / 10)) as [gamma|e0] eqn:G;
      simpl in Sc; [|discriminate].
    destruct (np.inv (normal_matrix gamma H)) as [R|e] eqn:I;
      simpl in Sc; [|discriminate].
    injection Sc as <-.
    destruct (mmse_design_steps pow h snr gamma None self H R E G I)
      as (i & Ha & Hf & Hi & Hnone).
    exists i, (np.matmul R (np.transpose H)), (mmse_quad H R).
    split; [now apply (mmse_scores_length h)|].
    split; [exact Ha|]. split; [exact Hf|].
    split; [simpl; rewrite G; simpl; now rewrite I|].
    split; [|split].
    + intros k Hk.
      destruct (mmse_design_steps pow h snr gamma (Some k) self H R E G I)
        as (i' & Ha' & _ & _ & Hs).
      assert (i' = i) by congruence. subst i'.
      simpl in Hs |- *. rewrite Hs.
      destruct (Z.leb_spec (Z.of_nat (length h + N self - 1)) k);
        [reflexivity|]. fold m in H0. lia.
    + intros k Hk.
      destruct (mmse_design_steps pow h snr gamma (Some k) self H R E G I)
        as (i' & Ha' & _ & _ & Hs).
      assert (i' = i) by congruence. subst i'.
      simpl in Hs |- *. rewrite Hs.
      destruct (Z.leb_spec (Z.of_nat (length h + N self - 1)) k);
        [fold m in H0; lia|reflexivity].
    + simpl in Hnone |- *. rewrite Hnone.
      destruct (Z.leb_spec (Z.of_nat (length h + N self - 1)) (Z.of_nat i));
        [lia|reflexivity].
Qed.

Lemma scores_return (D : designer) (h : vector) (n : nat) (H : matrix) :
  convMatrix h n = Ok H -> positive_noise D -> exists sc, scores D H = Ok sc.
Proof.
  intros E Hpos. destruct D as [|pow snr]; simpl in *.
  - eexists. reflexivity.
  - destruct Hpos as (gamma & G & Hg).
    rewrite (float_pow_value pow _ _ _ G). simpl.
    destruct (mmse_inverse_exists h n gamma H E Hg) as [R ->].
    eexists. reflexivity.
Qed.

(** What a design leaves behind, by outcome. *)
Lemma design_outcome (D : designer) (h : vector) (delay : option Z)
  (self : Equalizer) :
  (exists e, design D h delay self = (Raise e, self) /\ e <> InvalidDelay) \/
  exists H sc i W quad,
    convMatrix h (N self) = Ok H /\
    scores D H = Ok sc /\
    length sc = (length h + N self - 1)%nat /\
    np.argmax sc = Ok i /\
    first_max sc i /\
    solver D H = Ok W /\
    let m := (length h + N self - 1)%nat in
    let self1 := mkEqualizer (N self) (w self) (Z.of_nat i) in
    (design D h delay self = (Raise InvalidDelay, self1) \/
     exists k0, design D h delay self = finish m W quad k0 self1).
Proof.
  destruct (convMatrix h (N self)) as [H|e] eqn:E.
  2:{ left. exists e. apply design_early_raise. now left. }
  destruct (scores D H) as [sc|e] eqn:Sc.
  2:{ left. exists e. apply design_early_raise. right. now exists H. }
  right.
  destruct (design_steps D h self H sc E Sc)
    as (i & W & quad & Hlen & Ha & Hf & HW & Hbig & Hsmall & Hnone).
  exists H, sc, i, W, quad.
  split; [reflexivity|]. split; [exact Sc|]. split; [exact Hlen|].
  split; [exact Ha|]. split; [exact Hf|]. split; [exact HW|].
  cbv zeta. destruct delay as [k|].
  - destruct (Z.le_gt_cases (Z.of_nat (length h + N self - 1)) k) as [Hk|Hk].
    + left. now apply Hbig.
    + right. exists k. apply Hsmall. lia.
  - right. exists (Z.of_nat i). exact Hnone.
Qed.

Lemma finish_opt_delay (m : nat) (W : matrix) (quad : vector -> Q) (k0 : Z)
  (self : Equalizer) :
  opt_delay (snd (finish m W quad k0 self)) = opt_delay self.
Proof.
  unfold finish. destruct (np.setitem (repeat 0 m) k0 1); reflexivity.
Qed.

Lemma convMatrix_returns (h : vector) (p : nat) :
  (1 <= length h)%nat -> (1 <= p)%nat -> exists H, convMatrix h p = Ok H.
Proof.
  intros HL Hp. rewrite convMatrix_eq by assumption. eexists. reflexivity.
Qed.

(** ** Failure with the delay error *)

(** C1, as the code has it. For both designers, when [design] fails with
    the delay error, the stored weights [w] (and [N]) are what they were
    before the call, and [opt_delay] holds the optimum computed by this
    call: it is assigned before the delay is checked. *)
Theorem design_invalid_delay_state (D : designer) (h : vector)
  (delay : option Z) (self : Equalizer) :
  fst (design D h delay self) = Raise InvalidDelay ->
  let self' := snd (design D h delay self) in
  w self' = w self /\
  N self' = N self /\
  exists H sc i,
    convMatrix h (N self) = Ok H /\
    scores D H = Ok sc /\
    np.argmax sc = Ok i /\
    opt_delay self' = Z.of_nat i.
Proof.
  intros Hfail.
  destruct (design_outcome D h delay self)
    as [(e & He & Hne)|(H & sc & i & W & quad & E & Sc & _ & Ha & _ & _ & Hd)].
  - rewrite He in Hfail. simpl in Hfail. congruence.
  - cbv zeta in Hd. destruct Hd as [Hd|(k0 & Hd)]; rewrite Hd in Hfail |- *.
    + simpl. split; [reflexivity|]. split; [reflexivity|].
      exists H, sc, i. auto.
    + apply finish_raise in Hfail as [_ Hne]. congruence.
Qed.

Lemma design_invalid_delay_state_witness :
  fst (design ZF [0; 1] (Some 2%Z) (init 1)) = Raise InvalidDelay /\
  w (snd (design ZF [0; 1] (Some 2%Z) (init 1))) = w (init 1).
Proof.
  assert (Hfail : fst (design ZF [0; 1] (Some 2%Z) (init 1))
                  = Raise InvalidDelay) by (vm_compute; reflexivity).
  split; [exact Hfail|].
  exact (proj1 (design_invalid_delay_state ZF [0; 1] (Some 2%Z) (init 1) Hfail)).
Defined.

(** C1, as stated, fails: a zero-forcing design for the channel [0, 1] with
    one tap and delay 2 raises the delay error and leaves [opt_delay = 1]
    on an instance that held [opt_delay = 0]. *)
Lemma design_invalid_delay_overwrites_opt_delay :
  fst (design ZF [0; 1] (Some 2%Z) (init 1)) = Raise InvalidDelay /\
  opt_delay (init 1) = 0%Z /\
  opt_delay (snd (design ZF [0; 1] (Some 2%Z) (init 1))) = 1%Z /\
  ~ (w (snd (design ZF [0; 1] (Some 2%Z) (init 1))) = w (init 1) /\
     opt_delay (snd (design ZF [0; 1] (Some 2%Z) (init 1)))
     = opt_delay (init 1)).
Proof.
  split; [vm_compute; reflexivity|]. split; [reflexivity|].
  split; [vm_compute; reflexivity|].
  intros [_ Hd]. vm_compute in Hd. discriminate.
Qed.

(** ** Delay left to the designer *)

(** C9. For a channel of length [L >= 1] and [N >= 1] taps, a zero-forcing
    design without a delay never raises the delay error: it returns, the
    delay it uses is the [opt_delay] it has just stored, and that index is
    below [L+N-1]. *)
Theorem zf_design_default_delay (h : vector) (self : Equalizer) :
  (1 <= length h)%nat -> (1 <= N self)%nat ->
  let out := zeroForcing.design h None self in
  let m := (length h + N self - 1)%nat in
  fst out <> Raise InvalidDelay /\
  (exists mse, fst out = Ok mse) /\
  (0 <= opt_delay (snd out) < Z.of_nat m)%Z /\
  exists H,
    convMatrix h (N self) = Ok H /\
    w (snd out)
    = np.matvec (np.pinv H) (unit_impulse m (Z.to_nat (opt_delay (snd out)))).
Proof.
  intros HL HN out m.
  destruct (convMatrix_returns h (N self) HL HN) as [H E].
  destruct (zf_design_steps h None self H E) as (i & _ & _ & Hi & Hd).
  cbv zeta in Hd. fold m in Hi, Hd.
  rewrite (finish_ok _ _ _ _ _ (unit_impulse m i)) in Hd
    by (rewrite setitem_impulse by lia; now rewrite Nat2Z.id).
  unfold out. rewrite Hd. simpl.
  split; [discriminate|]. split; [eexists; reflexivity|].
  split; [lia|]. exists H. split; [exact E|]. now rewrite Nat2Z.id.
Qed.

Lemma zf_design_default_delay_witness :
  (1 <= length [1; 0.5]%Q)%nat /\ (1 <= N (init 2))%nat /\
  fst (zeroForcing.design [1; 0.5] None (init 2)) <> Raise InvalidDelay.
Proof.
  assert (HL : (1 <= length [1; 0.5]%Q)%nat) by (simpl; lia).
  assert (HN : (1 <= N (init 2))%nat) by (simpl; lia).
  split; [exact HL|]. split; [exact HN|].
  exact (proj1 (zf_design_default_delay [1; 0.5] (init 2) HL HN)).
Defined.

(** ** The weights keep their length *)

Lemma gauss_length (n : nat) (rows : list np.arow) (X : matrix) :
  np.gauss n rows = Some X -> length X = n.
Proof.
  revert rows X. induction n as [|n IH]; intros rows X E; simpl in E.
  - now injection E as <-.
  - destruct (np.pick_pivot rows) as [[p others]|]; [|discriminate].
    destruct (np.gauss n _) as [Y|] eqn:G; [|discriminate].
    injection E as <-. simpl. f_equal. now apply IH in G.
Qed.

Lemma inv_length (A R : matrix) : np.inv A = Ok R -> length R = length A.
Proof.
  unfold np.inv. destruct (forallb _ A); [|discriminate].
  destruct (np.gauss _ _) as [X|] eqn:G; [|discriminate].
  intros [= <-]. now apply gauss_length in G.
Qed.

Lemma solver_rows (D : designer) (h : vector) (n : nat) (H W : matrix) :
  convMatrix h n = Ok H -> solver D H = Ok W -> length W = n.
Proof.
  intros E S. destruct (convMatrix_shape _ _ _ E) as (HL & Hn & Sh).
  destruct D as [|pow snr]; simpl in S.
  - injection S as <-.
    apply (shape_pinv _ _ _ Sh). lia.
  - destruct (MMSEEQ.float_pow pow 10 (- snr / 10)) as [gamma|] eqn:G;
      simpl in S; [|discriminate].
    destruct (np.inv (normal_matrix gamma H)) as [R|] eqn:I;
      simpl in S; [|discriminate].
    injection S as <-. unfold np.matmul. rewrite length_map.
    rewrite (inv_length _ _ I).
    unfold normal_matrix. rewrite (ncols_shape _ _ _ Sh) by lia.
    apply (normal_matrix_shape (length h + n - 1) n H); [exact Sh|lia].
Qed.

(** Every instance built by [init] has [N] weights, and a design, returning
    or not, keeps it so. *)
Lemma init_weights_length (n : nat) : length (w (init n)) = N (init n).
Proof. simpl. apply repeat_length. Qed.

(** X6. The weights keep their length: on an instance holding [N] weights,
    every design call, by either designer, returning or raising, leaves [N]
    unchanged and [N] weights on the instance. *)
Lemma design_weights_length (D : designer) (h : vector) (delay : option Z)
  (self : Equalizer) :
  length (w self) = N self ->
  let self' := snd (design D h delay self) in
  N self' = N self /\ length (w self') = N self'.
Proof.
  intros Hw.
  destruct (design_outcome D h delay self)
    as [(e & He & _)|(H & sc & i & W & quad & E & _ & _ & _ & _ & HW & Hd)].
  - rewrite He. simpl. auto.
  - cbv zeta in Hd. destruct Hd as [Hd|(k0 & Hd)]; rewrite Hd.
    + simpl. auto.
    + unfold finish. destruct (np.setitem _ k0 1); simpl; [|auto].
      split; [reflexivity|]. unfold np.matvec. rewrite length_map.
      now apply (solver_rows D h _ H).
Qed.

(** ** Applying the equalizer *)

Lemma veq_map_seq (f g : nat -> Q) (n : nat) :
  (forall i, (i < n)%nat -> f i == g i) ->
  veq (map f (seq 0 n)) (map g (seq 0 n)).
Proof.
  intros E. apply veq_nth.
  - now rewrite !length_map.
  - intros i Hi. rewrite length_map, length_seq in Hi.
    rewrite !nth_map_seq by lia. now apply E.
Qed.

Lemma convolve_full (a v : vector) :
  (1 <= length a)%nat -> (1 <= length v)%nat ->
  exists out,
    np.convolve a v = Ok out /\
    length out = (length a + length v - 1)%nat /\
    veq out (full_convolution a v).
Proof.
  intros Ha Hv. unfold np.convolve.
  destruct (Nat.ltb_spec (length a) (length v)).
  - exists (map (np.conv_at v a) (seq 0 (length v + length a - 1))).
    split; [|split].
    + destruct v; [simpl in Hv; lia|]. destruct a; [simpl in Ha; lia|].
      reflexivity.
    + rewrite length_map, length_seq. lia.
    + unfold full_convolution.
      replace (length a + length v - 1)%nat
        with (length v + length a - 1)%nat by lia.
      apply veq_map_seq. intros i _.
      rewrite conv_at_sum. apply conv_sum_comm.
  - exists (map (np.conv_at a v) (seq 0 (length a + length v - 1))).
    split; [|split].
    + destruct a; [simpl in Ha; lia|]. destruct v; [simpl in Hv; lia|].
      reflexivity.
    + now rewrite length_map, length_seq.
    + apply veq_map_seq. intros i _. apply conv_at_sum.
Qed.

(** C2, as the code has it. On an instance with its [N >= 1] weights,
    [equalize] returns, for every non-empty input, the full linear
    convolution of the input with the weights, of length
    [len(input) + N - 1], and leaves the instance alone; on the empty input
    it raises [ValueError]. *)
Theorem equalize_full_convolution (self : Equalizer) (x : vector) :
  length (w self) = N self -> (1 <= N self)%nat ->
  (x <> [] ->
   exists out,
     equalize self x = Ok out /\
     length out = (length x + N self - 1)%nat /\
     veq out (full_convolution x (w self))) /\
  (x = [] -> equalize self x = Raise (ValueError "v cannot be empty")).
Proof.
  intros Hw HN. split.
  - intros Hx. unfold equalize. rewrite <- Hw.
    apply convolve_full; [|lia].
    destruct x; [congruence|simpl; lia].
  - intros ->. unfold equalize, np.convolve.
    destruct (w self) as [|y ws] eqn:E; [simpl in Hw; lia|].
    reflexivity.
Qed.

Lemma equalize_full_convolution_witness :
  length (w (init 3)) = N (init 3) /\ (1 <= N (init 3))%nat /\
  exists out,
    equalize (init 3) [1; 2] = Ok out /\
    length out = (length [1; 2]%Q + N (init 3) - 1)%nat /\
    veq out (full_convolution [1; 2] (w (init 3))).
Proof.
  assert (Hw : length (w (init 3)) = N (init 3)) by reflexivity.
  assert (HN : (1 <= N (init 3))%nat) by (simpl; lia).
  split; [exact Hw|]. split; [exact HN|].
  apply (proj1 (equalize_full_convolution (init 3) [1; 2] Hw HN)).
  discriminate.
Defined.

(** C2, as stated, fails: on the empty input [equalize] raises instead of
    returning [N-1] zeros. *)
Lemma equalize_empty_input_raises :
  equalize (init 3) [] = Raise (ValueError "v cannot be empty") /\
  equalize (init 3) [] <> Ok (repeat 0 (3 - 1)).
Proof. split; [reflexivity|discriminate]. Qed.

(** ** Concrete designs *)

(** C7. For the channel [1] and one tap, the zero-forcing design returns
    the error 0 and stores the weights [1] and the delay 0, with the delay
    left out or given as 0. *)
Theorem zf_design_degenerate :
  zeroForcing.design [1] None (init 1) = (Ok 0, mkEqualizer 1 [1] 0%Z) /\
  zeroForcing.design [1] (Some 0%Z) (init 1) = (Ok 0, mkEqualizer 1 [1] 0%Z).
Proof. split; vm_compute; reflexivity. Qed.

Lemma mmse_design_gamma (pow pow' : Q -> Q -> option Q) (h : vector) (snr : Q)
  (delay : option Z) (self : Equalizer) :
  pow 10 (- snr / 10) = pow' 10 (- snr / 10) ->
  MMSEEQ.design pow h snr delay self = MMSEEQ.design pow' h snr delay self.
Proof. intros E. unfold MMSEEQ.design, MMSEEQ.float_pow. now rewrite E. Qed.

(** C8. For the channel [1, 0.5], two taps and delay 0, the MMSE design at
    20 dB, where the noise ratio is 1/100, returns the error 97/1672, which
    is strictly greater than the error 1/21 of the zero-forcing design for
    the same channel, taps and delay. *)
Theorem mmse_mse_exceeds_zf (pow : Q -> Q -> option Q) :
  pow 10 (- 20 / 10) = Some (1 # 100) ->
  exists mse_zf mse_mmse,
    fst (zeroForcing.design [1; 0.5] (Some 0%Z) (init 2)) = Ok mse_zf /\
    fst (MMSEEQ.design pow [1; 0.5] 20 (Some 0%Z) (init 2)) = Ok mse_mmse /\
    mse_zf == 1 # 21 /\
    mse_mmse == 97 # 1672 /\
    mse_zf < mse_mmse.
Proof.
  intros Hp.
  rewrite (mmse_design_gamma pow (fun _ _ => Some (1 # 100))) by exact Hp.
  eexists. eexists.
  split; [vm_compute; reflexivity|].
  split; [vm_compute; reflexivity|].
  split; [vm_compute; reflexivity|].
  split; vm_compute; reflexivity.
Qed.

Lemma mmse_mse_exceeds_zf_witness :
  pow_floor 10 (- 20 / 10) = Some (1 # 100) /\
  exists mse_zf mse_mmse,
    fst (zeroForcing.design [1; 0.5] (Some 0%Z) (init 2)) = Ok mse_zf /\
    fst (MMSEEQ.design pow_floor [1; 0.5] 20 (Some 0%Z) (init 2))
    = Ok mse_mmse /\
    mse_zf < mse_mmse.
Proof.
  assert (Hp : pow_floor 10 (- 20 / 10) = Some (1 # 100)) by reflexivity.
  split; [exact Hp|].
  destruct (mmse_mse_exceeds_zf pow_floor Hp)
    as (a & b & Ha & Hb & _ & _ & Hlt).
  exists a, b. auto.
Defined.

Lemma convMatrix_matvec_witness :
  (1 <= length [1; 0.5]%Q)%nat /\ (1 <= 2)%nat /\ length [2; 3]%Q = 2%nat /\
  exists H,
    convMatrix [1; 0.5] 2 = Ok H /\
    veq (np.matvec H [2; 3]) (full_convolution [1; 0.5] [2; 3]).
Proof.
  assert (HL : (1 <= length [1; 0.5]%Q)%nat) by (simpl; lia).
  assert (Hp : (1 <= 2)%nat) by lia.
  assert (Hx : length [2; 3]%Q = 2%nat) by reflexivity.
  split; [exact HL|]. split; [exact Hp|]. split; [exact Hx|].
  destruct (convMatrix_matvec [1; 0.5] [2; 3] 2 HL Hp Hx)
    as (H & E & _ & Hv).
  exists H. auto.
Defined.

(** ** The exact primitives on the matrices of the scenarios

    The pseudo-inverse returned for the convolution matrices used above,
    and for a rank-deficient, a zero and a wide matrix, solves the four
    Moore-Penrose equations; the inverse returned for the regularised normal
    matrix of the MMSE scenario is its two-sided inverse. *)

Example pinv_penrose_scenarios :
  penrose [[1]] (np.pinv [[1]]) = true /\
  penrose [[0]; [1]] (np.pinv [[0]; [1]]) = true /\
  penrose [[1; 0]; [0.5; 1]; [0; 0.5]]
          (np.pinv [[1; 0]; [0.5; 1]; [0; 0.5]]) = true /\
  penrose [[1; 2]; [2; 4]] (np.pinv [[1; 2]; [2; 4]]) = true /\
  penrose [[0; 0]; [0; 0]; [0; 0]] (np.pinv [[0; 0]; [0; 0]; [0; 0]]) = true /\
  penrose [[1; 1]] (np.pinv [[1; 1]]) = true.
Proof.
  do 5 (split; [vm_compute; reflexivity|]). vm_compute. reflexivity.
Qed.

Example inv_scenarios :
  (exists R,
     np.inv (normal_matrix (1 # 100) [[1; 0]; [0.5; 1]; [0; 0.5]]) = Ok R /\
     inverse_of (normal_matrix (1 # 100) [[1; 0]; [0.5; 1]; [0; 0.5]]) R
     = true) /\
  (exists R,
     np.inv [[0; 1; 2]; [1; 0; 3]; [4; -3; 8]] = Ok R /\
     inverse_of [[0; 1; 2]; [1; 0; 3]; [4; -3; 8]] R = true) /\
  np.inv [[1; 2]; [2; 4]] = Raise (LinAlgError "Singular matrix").
Proof.
  split; [|split].
  - eexists. split; [vm_compute; reflexivity|vm_compute; reflexivity].
  - eexists. split; [vm_compute; reflexivity|vm_compute; reflexivity].
  - vm_compute. reflexivity.
Qed.

(** The scores of the first scenario of failure: for the channel [0, 1] and
    one tap they are [0, 1], whose first maximum is at index 1. *)
Example zf_scores_shifted_channel :
  convMatrix [0; 1] 1 = Ok [[0]; [1]] /\
  zf_scores [[0]; [1]] = [0; 1] /\
  np.argmax [0; 1] = Ok 1%nat.
Proof.
  do 2 (split; [vm_compute; reflexivity|]). vm_compute. reflexivity.
Qed.

(** * Further properties of the code *)

(** ** A fresh instance *)

Lemma veq_zero (a b : vector) :
  veq a b -> Forall (fun v => v == 0) b -> Forall (fun v => v == 0) a.
Proof.
  induction 1 as [|x y a b Hxy _ IH]; intros Hb; [constructor|].
  inversion Hb; subst. constructor; [|now apply IH].
  now rewrite Hxy.
Qed.

Lemma full_convolution_zero_weights (x : vector) (n : nat) :
  Forall (fun v => v == 0) (full_convolution x (repeat 0 n)).
Proof.
  unfold full_convolution. apply Forall_forall. intros v Hv.
  apply in_map_iff in Hv as (i & <- & _).
  unfold conv_sum.
  rewrite (sum_upto_ext _ (fun _ => 0 * 0)).
  - rewrite sum_upto_scale. ring.
  - intros k _. unfold conv_term. rewrite nth_repeat_zero. ring.
Qed.

(** X1. [__init__] stores [N] zero weights and the delay 0, so on an
    instance that was never designed [equalize] returns, for every non-empty
    input, [len(input) + N - 1] zeros. *)
Theorem equalize_before_design (n : nat) (x : vector) :
  (1 <= n)%nat -> x <> [] ->
  exists out,
    equalize (init n) x = Ok out /\
    length out = (length x + n - 1)%nat /\
    Forall (fun v => v == 0) out.
Proof.
  intros Hn Hx. unfold equalize. simpl w.
  destruct (convolve_full x (repeat 0 n)) as (out & E & Hlen & Hv).
  - destruct x; [congruence|simpl; lia].
  - rewrite repeat_length. lia.
  - exists out. split; [exact E|].
    split; [now rewrite repeat_length in Hlen|].
    apply (veq_zero _ _ Hv). apply full_convolution_zero_weights.
Qed.

Lemma equalize_before_design_witness :
  (1 <= 3)%nat /\ [1; 2] <> [] /\
  exists out,
    equalize (init 3) [1; 2] = Ok out /\
    length out = 4%nat /\
    Forall (fun v => v == 0) out.
Proof.
  assert (Hn : (1 <= 3)%nat) by lia.
  assert (Hx : [1; 2] <> []) by discriminate.
  split; [exact Hn|]. split; [exact Hx|].
  exact (equalize_before_design 3 [1; 2] Hn Hx).
Defined.

(** X2. An instance without taps cannot be applied: with [N = 0] the
    weights are empty and [equalize] raises [ValueError] on every input. *)
Theorem equalize_without_taps (x : vector) :
  exists msg, equalize (init 0) x = Raise (ValueError msg).
Proof.
  unfold equalize, np.convolve. simpl.
  destruct x; eexists; reflexivity.
Qed.

(** ** Designs that cannot start *)

(** X3. Degenerate inputs are not validated: with [N = 0] both designers
    fail with the [ValueError] of [np.zeros(-1)], and with [N >= 1] and an
    empty channel with the [IndexError] of [h[0]]; in both cases whatever
    delay was passed and with the instance left exactly as it was. *)
Theorem design_degenerate_input (D : designer) (h : vector)
  (delay : option Z) (self : Equalizer) :
  (N self = 0%nat ->
   design D h delay self
   = (Raise (ValueError "negative dimensions are not allowed"), self)) /\
  ((1 <= N self)%nat -> h = [] ->
   exists msg, design D h delay self = (Raise (IndexError msg), self)).
Proof.
  split.
  - intros HN.
    apply (design_early_raise D h delay self). left.
    rewrite HN. reflexivity.
  - intros HN ->. eexists.
    apply (design_early_raise D [] delay self). left.
    unfold convMatrix.
    replace (Z.of_nat (N self) - 1)%Z with (Z.of_nat (N self - 1)) by lia.
    rewrite zeros_ok. reflexivity.
Qed.

Lemma design_degenerate_input_witness :
  N (init 0) = 0%nat /\
  design (MMSE pow_floor 20) [1; 0.5] None (init 0)
  = (Raise (ValueError "negative dimensions are not allowed"), init 0).
Proof.
  assert (HN : N (init 0) = 0%nat) by reflexivity.
  split; [exact HN|].
  exact (proj1 (design_degenerate_input (MMSE pow_floor 20) [1; 0.5] None
                  (init 0)) HN).
Defined.

(** ** What a failed design leaves *)

(** X4. Whatever exception a design raises, in either designer, the
    weights and [N] of the instance are what they were, so [equalize]
    answers as before the call. *)
Theorem design_failure_keeps_weights (D : designer) (h : vector)
  (delay : option Z) (self : Equalizer) (e : exn) :
  fst (design D h delay self) = Raise e ->
  let self' := snd (design D h delay self) in
  w self' = w self /\
  N self' = N self /\
  forall x, equalize self' x = equalize self x.
Proof.
  intros Hfail.
  assert (Hw : w (snd (design D h delay self)) = w self /\
               N (snd (design D h delay self)) = N self).
  { destruct (design_outcome D h delay self)
      as [(e' & He & _)|(H & sc & i & W & quad & _ & _ & _ & _ & _ & _ & Hd)].
    - rewrite He. simpl. auto.
    - cbv zeta in Hd. destruct Hd as [Hd|(k0 & Hd)]; rewrite Hd in Hfail |- *.
      + simpl. auto.
      + apply finish_raise in Hfail as [-> _]. simpl. auto. }
  destruct Hw as [Hw HN]. cbv zeta. split; [exact Hw|]. split; [exact HN|].
  intros x. unfold equalize. now rewrite Hw.
Qed.

Lemma design_failure_keeps_weights_witness :
  fst (design ZF [1; 0.5] (Some (-4)%Z) (init 2))
  = Raise (IndexError "index out of bounds") /\
  w (snd (design ZF [1; 0.5] (Some (-4)%Z) (init 2))) = w (init 2).
Proof.
  assert (Hfail : fst (design ZF [1; 0.5] (Some (-4)%Z) (init 2))
                  = Raise (IndexError "index out of bounds"))
    by (vm_compute; reflexivity).
  split; [exact Hfail|].
  exact (proj1 (design_failure_keeps_weights ZF [1; 0.5] (Some (-4)%Z)
                  (init 2) _ Hfail)).
Defined.

Lemma design_weights_length_witness :
  length (w (init 2)) = N (init 2) /\
  length (w (snd (design (MMSE pow_floor 20) [1; 0.5] None (init 2))))
  = N (snd (design (MMSE pow_floor 20) [1; 0.5] None (init 2))).
Proof.
  assert (Hw : length (w (init 2)) = N (init 2)) by reflexivity.
  split; [exact Hw|].
  exact (proj2 (design_weights_length (MMSE pow_floor 20) [1; 0.5] None
                  (init 2) Hw)).
Defined.

(** ** Designing again *)

Lemma zf_design_same_taps (h : vector) (delay : option Z)
  (self1 self2 : Equalizer) :
  N self1 = N self2 ->
  fst (zeroForcing.design h delay self1)
  = fst (zeroForcing.design h delay self2) /\
  forall mse, fst (zeroForcing.design h delay self1) = Ok mse ->
              snd (zeroForcing.design h delay self1)
              = snd (zeroForcing.design h delay self2).
Proof.
  intros HN.
  destruct (convMatrix h (N self1)) as [H|e] eqn:E.
  - assert (E2 : convMatrix h (N self2) = Ok H) by now rewrite <- HN.
    destruct (zf_design_steps h delay self1 H E) as (i & Ha & _ & _ & H1).
    destruct (zf_design_steps h delay self2 H E2) as (i' & Ha' & _ & _ & H2).
    assert (i' = i) by congruence. subst i'.
    cbv zeta in H1, H2. rewrite H1, H2, <- HN.
    unfold finish.
    destruct delay as [k|].
    + destruct (Z.of_nat (length h + N self1 - 1) <=? k)%Z;
        [split; [reflexivity|discriminate]|].
      destruct (np.setitem _ k 1); simpl;
        [split; [reflexivity|now rewrite HN]|split; [reflexivity|discriminate]].
    + destruct (np.setitem _ (Z.of_nat i) 1); simpl;
        [split; [reflexivity|now rewrite HN]|split; [reflexivity|discriminate]].
  - assert (E2 : convMatrix h (N self2) = Raise e) by now rewrite <- HN.
    rewrite (zf_design_no_matrix h delay self1 e E).
    rewrite (zf_design_no_matrix h delay self2 e E2).
    split; [reflexivity|discriminate].
Qed.

Lemma mmse_design_same_taps (pow : Q -> Q -> option Q) (h : vector) (snr : Q)
  (delay : option Z) (self1 self2 : Equalizer) :
  N self1 = N self2 ->
  fst (MMSEEQ.design pow h snr delay self1)
  = fst (MMSEEQ.design pow h snr delay self2) /\
  forall mse, fst (MMSEEQ.design pow h snr delay self1) = Ok mse ->
              snd (MMSEEQ.design pow h snr delay self1)
              = snd (MMSEEQ.design pow h snr delay self2).
Proof.
  intros HN.
  destruct (convMatrix h (N self1)) as [H|e] eqn:E.
  - assert (E2 : convMatrix h (N self2) = Ok H) by now rewrite <- HN.
    destruct (MMSEEQ.float_pow pow 10 (- snr / 10)) as [gamma|e0] eqn:G.
    2:{ rewrite (mmse_design_no_power pow h snr delay self1 H e0 E G).
        rewrite (mmse_design_no_power pow h snr delay self2 H e0 E2 G).
        split; [reflexivity|discriminate]. }
    destruct (np.inv (normal_matrix gamma H)) as [R|e] eqn:I.
    + destruct (mmse_design_steps pow h snr gamma delay self1 H R E G I)
        as (i & Ha & _ & _ & H1).
      destruct (mmse_design_steps pow h snr gamma delay self2 H R E2 G I)
        as (i' & Ha' & _ & _ & H2).
      assert (i' = i) by congruence. subst i'.
      cbv zeta in H1, H2. rewrite H1, H2, <- HN.
      unfold finish.
      destruct (Z.of_nat (length h + N self1 - 1) <=? _)%Z;
        [split; [reflexivity|discriminate]|].
      destruct (np.setitem _ _ 1); simpl;
        [split; [reflexivity|now rewrite HN]|split; [reflexivity|discriminate]].
    + rewrite (mmse_design_no_inverse pow h snr gamma delay self1 H e E G I).
      rewrite (mmse_design_no_inverse pow h snr gamma delay self2 H e E2 G I).
      split; [reflexivity|discriminate].
  - assert (E2 : convMatrix h (N self2) = Raise e) by now rewrite <- HN.
    rewrite (mmse_design_no_matrix pow h snr delay self1 e E).
    rewrite (mmse_design_no_matrix pow h snr delay self2 e E2).
    split; [reflexivity|discriminate].
Qed.

(** X7. A design overwrites: its outcome (the error returned or the
    exception raised) depends on the instance only through [N], and when it
    returns, so does the whole instance it leaves; in particular designing
    twice with the same arguments gives the same error and the same
    instance as designing once. *)
Theorem design_overwrites (D : designer) (h : vector) (delay : option Z)
  (self1 self2 : Equalizer) :
  N self1 = N self2 ->
  fst (design D h delay self1) = fst (design D h delay self2) /\
  forall mse, fst (design D h delay self1) = Ok mse ->
              snd (design D h delay self1) = snd (design D h delay self2).
Proof.
  intros HN. destruct D as [|pow snr]; simpl.
  - now apply zf_design_same_taps.
  - now apply mmse_design_same_taps.
Qed.

Lemma design_overwrites_witness :
  N (snd (design ZF [1; 0.5] (Some 1%Z) (init 2))) = N (init 2) /\
  fst (design ZF [1; 0.5] None (snd (design ZF [1; 0.5] (Some 1%Z) (init 2))))
  = fst (design ZF [1; 0.5] None (init 2)).
Proof.
  assert (HN : N (snd (design ZF [1; 0.5] (Some 1%Z) (init 2))) = N (init 2))
    by (vm_compute; reflexivity).
  split; [exact HN|].
  exact (proj1 (design_overwrites ZF [1; 0.5] None _ _ HN)).
Defined.

(** ** Products with a unit impulse *)

Lemma length_update (a : vector) (i : nat) (v : Q) :
  length (np.update a i v) = length a.
Proof.
  revert i. induction a as [|x a IH]; intros [|i]; simpl; auto.
Qed.

Lemma dot_comm (a b : vector) : np.dot a b == np.dot b a.
Proof.
  revert b. induction a as [|x a IH]; intros [|y b]; simpl; try reflexivity.
  rewrite IH. ring.
Qed.

Lemma dot_impulse_r (y : vector) (m k : nat) :
  (k < m)%nat -> np.dot y (unit_impulse m k) == nth k y 0.
Proof.
  intros Hk.
  rewrite (dot_sum_upto _ _ m)
    by (unfold unit_impulse; rewrite length_update, repeat_length; lia).
  rewrite (sum_upto_ext _
             (fun j => (if (k =? j)%nat then 1 else 0) * nth j y 0)).
  - now apply sum_upto_delta.
  - intros j _. rewrite unit_impulse_nth by exact Hk.
    rewrite (Nat.eqb_sym j k). ring.
Qed.

Lemma dot_impulse_l (y : vector) (m k : nat) :
  (k < m)%nat -> np.dot (unit_impulse m k) y == nth k y 0.
Proof. intros Hk. rewrite dot_comm. now apply dot_impulse_r. Qed.

Lemma dot_veq_l (a b y : vector) : veq a b -> np.dot a y == np.dot b y.
Proof.
  intros E. revert y. induction E as [|x z a b Hxz _ IH]; intros y.
  - reflexivity.
  - destruct y as [|t y]; simpl; [reflexivity|].
    rewrite Hxz, IH. reflexivity.
Qed.

Lemma vecmat_veq (a b : vector) (B : matrix) :
  veq a b -> veq (np.vecmat a B) (np.vecmat b B).
Proof.
  intros E. unfold np.vecmat. apply veq_map_seq.
  intros j _. now apply dot_veq_l.
Qed.

Lemma nth_vecmat (x : vector) (B : matrix) (j : nat) :
  (j < np.ncols B)%nat -> nth j (np.vecmat x B) 0 = np.dot x (np.col j B).
Proof. intros Hj. unfold np.vecmat. now rewrite nth_map_seq. Qed.

Lemma nth_col (A : matrix) (j k : nat) :
  nth k (np.col j A) 0 = entry A k j.
Proof.
  unfold np.col, entry.
  assert (E : 0 = (fun r : vector => nth j r 0) [])
    by (destruct j; reflexivity).
  rewrite E at 1. apply (map_nth (fun r : vector => nth j r 0)).
Qed.

Lemma nth_matmul (A B : matrix) (k : nat) :
  (k < length A)%nat ->
  nth k (np.matmul A B) [] = np.vecmat (nth k A []) B.
Proof.
  intros Hk. unfold np.matmul.
  rewrite (nth_indep _ [] (np.vecmat [] B)) by (now rewrite length_map).
  apply (map_nth (fun r => np.vecmat r B)).
Qed.

Lemma nth_diag (A : matrix) (k : nat) :
  (k < length A)%nat -> (k < np.ncols A)%nat ->
  nth k (np.diag A) 0 = entry A k k.
Proof.
  intros H1 H2. unfold np.diag. rewrite nth_map_seq by lia. reflexivity.
Qed.

Lemma vecmat_impulse (m n k : nat) (A : matrix) :
  shape m n A -> (k < m)%nat ->
  veq (np.vecmat (unit_impulse m k) A) (nth k A []).
Proof.
  intros Sh Hk.
  pose proof (ncols_shape _ _ _ Sh ltac:(lia)) as Hc.
  destruct Sh as [Hm Hrows].
  assert (Hrow : length (nth k A []) = n).
  { rewrite Forall_forall in Hrows. apply Hrows, nth_In. lia. }
  apply veq_nth.
  - unfold np.vecmat. now rewrite length_map, length_seq, Hc, Hrow.
  - intros j Hj. unfold np.vecmat in Hj.
    rewrite length_map, length_seq in Hj.
    rewrite nth_vecmat by exact Hj.
    rewrite dot_impulse_l by exact Hk.
    now rewrite nth_col.
Qed.

(** [d @ A @ B @ d] for the unit impulse [d] at [k] is entry [(k,k)] of
    [A @ B]. *)
Lemma quad_impulse (m n k : nat) (A B : matrix) :
  shape m n A -> (k < m)%nat -> (k < np.ncols B)%nat ->
  np.dot (np.vecmat (np.vecmat (unit_impulse m k) A) B) (unit_impulse m k)
  == entry (np.matmul A B) k k.
Proof.
  intros Sh Hk Hc.
  rewrite dot_impulse_r by exact Hk.
  rewrite nth_vecmat by exact Hc.
  rewrite (dot_veq_l _ _ _ (vecmat_impulse m n k A Sh Hk)).
  unfold entry. rewrite nth_matmul by (destruct Sh; lia).
  now rewrite nth_vecmat.
Qed.

Lemma zf_quad_score (h : vector) (n k : nat) (H : matrix) :
  convMatrix h n = Ok H ->
  (k < length h + n - 1)%nat ->
  zf_quad H (unit_impulse (length h + n - 1) k) == nth k (zf_scores H) 0.
Proof.
  intros E Hk. destruct (convMatrix_shape _ _ _ E) as (HL & Hn & Sh).
  assert (Hc : np.ncols (np.pinv H) = (length h + n - 1)%nat).
  { apply (ncols_shape n); [|lia]. apply shape_pinv; [exact Sh|lia]. }
  unfold zf_quad, zf_scores.
  rewrite (quad_impulse _ n) by (try exact Sh; lia).
  rewrite nth_diag; [reflexivity| |].
  - unfold np.matmul. rewrite length_map. destruct Sh. lia.
  - rewrite (ncols_shape (length h + n - 1) (length h + n - 1)); [lia| |lia].
    apply shape_matmul; [apply Sh|exact Hc].
Qed.

Lemma mmse_quad_score (h : vector) (n k : nat) (H R : matrix) :
  convMatrix h n = Ok H ->
  (k < length h + n - 1)%nat ->
  mmse_quad H R (unit_impulse (length h + n - 1) k)
  == nth k (mmse_scores H R) 0.
Proof.
  intros E Hk. destruct (convMatrix_shape _ _ _ E) as (HL & Hn & Sh).
  set (m := (length h + n - 1)%nat) in *.
  assert (Hc : np.ncols (np.transpose H) = m).
  { apply (ncols_shape n); [|lia]. apply shape_transpose; [exact Sh|lia]. }
  assert (Hlen : length H = m) by apply Sh.
  unfold mmse_quad, mmse_scores.
  rewrite dot_impulse_r by exact Hk.
  rewrite nth_vecmat by lia.
  rewrite (dot_veq_l _ _ _
             (vecmat_veq _ _ R (vecmat_impulse m n k H Sh Hk))).
  rewrite nth_diag.
  - unfold entry. rewrite nth_matmul
      by (unfold np.matmul; rewrite length_map; lia).
    rewrite nth_vecmat by lia.
    rewrite nth_matmul by lia. reflexivity.
  - unfold np.matmul. rewrite !length_map. lia.
  - rewrite (ncols_shape m m); [lia| |lia].
    apply shape_matmul; [unfold np.matmul; now rewrite length_map|exact Hc].
Qed.

(** ** The error returned and the scores *)

Lemma design_explicit_mse (D : designer) (h : vector) (self : Equalizer)
  (H : matrix) (sc : vector) (k : Z) :
  convMatrix h (N self) = Ok H ->
  scores D H = Ok sc ->
  (0 <= k < Z.of_nat (length h + N self - 1))%Z ->
  exists mse,
    fst (design D h (Some k) self) = Ok mse /\
    mse == 1 - nth (Z.to_nat k) sc 0.
Proof.
  intros E Sc Hk.
  set (m := (length h + N self - 1)%nat) in *.
  assert (Hset : np.setitem (repeat 0 m) k 1 = Ok (unit_impulse m (Z.to_nat k)))
    by (now apply setitem_impulse).
  destruct D as [|pow snr]; simpl in Sc |- *.
  - injection Sc as <-.
    destruct (zf_design_steps h (Some k) self H E) as (i & _ & _ & _ & Hd).
    cbv zeta in Hd. fold m in Hd. rewrite Hd.
    destruct (Z.leb_spec (Z.of_nat m) k); [lia|].
    rewrite (finish_ok _ _ _ _ _ _ Hset). simpl.
    eexists. split; [reflexivity|].
    unfold m. rewrite (zf_quad_score h (N self)) by (try exact E; lia).
    reflexivity.
  - destruct (MMSEEQ.float_pow pow 10 (- snr / 10)) as [gamma|e0] eqn:G;
      simpl in Sc; [|discriminate].
    destruct (np.inv (normal_matrix gamma H)) as [R|e] eqn:I;
      simpl in Sc; [|discriminate].
    injection Sc as <-.
    destruct (mmse_design_steps pow h snr gamma (Some k) self H R E G I)
      as (i & _ & _ & _ & Hd).
    cbv zeta in Hd. fold m in Hd. rewrite Hd.
    destruct (Z.leb_spec (Z.of_nat m) k); [lia|].
    rewrite (finish_ok _ _ _ _ _ _ Hset). simpl.
    eexists. split; [reflexivity|].
    unfold m. rewrite (mmse_quad_score h (N self)) by (try exact E; lia).
    reflexivity.
Qed.

(** ** The weights *)

Lemma matvec_impulse (W : matrix) (m k : nat) :
  (k < m)%nat -> veq (np.matvec W (unit_impulse m k)) (np.col k W).
Proof.
  intros Hk. unfold np.matvec, np.col, veq.
  induction W as [|r W IH]; simpl; constructor; [|exact IH].
  now apply dot_impulse_r.
Qed.

(** ** Channel and equalizer together *)

Lemma veq_sym (a b : vector) : veq a b -> veq b a.
Proof.
  induction 1; constructor; [now symmetry|assumption].
Qed.

Lemma veq_trans (a b c : vector) : veq a b -> veq b c -> veq a c.
Proof.
  intros E. revert c. induction E as [|x y a b Hxy _ IH]; intros c F.
  - inversion F. constructor.
  - inversion F; subst. constructor; [|now apply IH].
    etransitivity; eassumption.
Qed.

Lemma matvec_conv_matrix (h x : vector) (p : nat) (H : matrix) :
  convMatrix h p = Ok H -> length x = p ->
  veq (np.matvec H x) (full_convolution h x).
Proof.
  intros E Hx.
  destruct (convMatrix_shape _ _ _ E) as (HL & Hp & [Hr Hc]).
  apply veq_nth.
  - unfold full_convolution, np.matvec.
    rewrite !length_map, length_seq. lia.
  - intros i Hi. unfold np.matvec in Hi. rewrite length_map, Hr in Hi.
    unfold full_convolution. rewrite nth_map_seq by lia.
    unfold np.matvec.
    rewrite (nth_indep _ 0 (np.dot [] x)) by (rewrite length_map; lia).
    rewrite (map_nth (fun r => np.dot r x)).
    rewrite (dot_sum_upto _ _ p) by lia.
    rewrite conv_sum_comm, <- conv_at_sum. unfold np.conv_at. rewrite Hx.
    apply sum_upto_ext. intros j Hj.
    change (nth j (nth i H []) 0) with (entry H i j).
    rewrite (convMatrix_entry h p i j H E) by lia.
    destruct (Nat.leb_spec j i); simpl.
    + destruct (Nat.ltb_spec (i - j) (length h)); [ring|].
      rewrite (nth_overflow h) by lia. ring.
    + ring.
Qed.

(** X12. Equalizing the channel itself gives the combined response the
    designers work on: on an instance holding its [N >= 1] weights, for a
    channel [h] of length [L >= 1], [equalize(h)] is [H @ w] for
    [H = convMatrix(h, N)], entry by entry. *)
Theorem equalize_channel_response (self : Equalizer) (h : vector) :
  (1 <= length h)%nat -> length (w self) = N self -> (1 <= N self)%nat ->
  exists H out,
    convMatrix h (N self) = Ok H /\
    equalize self h = Ok out /\
    veq out (np.matvec H (w self)).
Proof.
  intros HL Hw HN.
  destruct (convMatrix_returns h (N self) HL HN) as [H E].
  destruct (convolve_full h (w self)) as (out & Ho & _ & Hv); [lia|lia|].
  exists H, out. split; [exact E|]. split; [exact Ho|].
  apply (veq_trans _ _ _ Hv). apply veq_sym.
  now apply (matvec_conv_matrix h (w self) (N self)).
Qed.

Lemma equalize_channel_response_witness :
  (1 <= length [1; 0.5]%Q)%nat /\
  length (w (init 2)) = N (init 2) /\ (1 <= N (init 2))%nat /\
  exists H out,
    convMatrix [1; 0.5] (N (init 2)) = Ok H /\
    equalize (init 2) [1; 0.5] = Ok out /\
    veq out (np.matvec H (w (init 2))).
Proof.
  assert (HL : (1 <= length [1; 0.5]%Q)%nat) by (simpl; lia).
  assert (Hw : length (w (init 2)) = N (init 2)) by reflexivity.
  assert (HN : (1 <= N (init 2))%nat) by (simpl; lia).
  split; [exact HL|]. split; [exact Hw|]. split; [exact HN|].
  exact (equalize_channel_response (init 2) [1; 0.5] HL Hw HN).
Defined.

(** ** The combined response at the decision delay *)

Lemma sum_upto_swap (f : nat -> nat -> Q) (p q : nat) :
  np.sum_upto (fun i => np.sum_upto (fun j => f i j) q) p
  == np.sum_upto (fun j => np.sum_upto (fun i => f i j) p) q.
Proof.
  induction p as [|p IH]; simpl.
  - rewrite (sum_upto_ext _ (fun _ => 0 * 0)) by (intros; ring).
    rewrite sum_upto_scale. ring.
  - rewrite IH, <- sum_upto_plus. reflexivity.
Qed.

Lemma dot_veq_r (a b y : vector) : veq a b -> np.dot y a == np.dot y b.
Proof.
  intros E. rewrite (dot_comm y a), (dot_comm y b). now apply dot_veq_l.
Qed.

Lemma veq_nth_eq (a b : vector) (k : nat) :
  veq a b -> nth k a 0 == nth k b 0.
Proof.
  intros E. revert k. induction E as [|x y a b Hxy _ IH]; intros [|k]; simpl;
    try reflexivity; auto.
Qed.

(** [(x @ B) . c = x . (B @ c)] *)
Lemma dot_vecmat_assoc (x c : vector) (B : matrix) (p q : nat) :
  shape p q B -> length c = q ->
  np.dot (np.vecmat x B) c == np.dot x (np.matvec B c).
Proof.
  intros [Hp Hrows] Hc.
  destruct (Nat.eq_dec p 0) as [->|Hpos].
  - destruct B; [|discriminate]. simpl.
    destruct x; reflexivity.
  - assert (Hnc : np.ncols B = q)
      by (apply (ncols_shape p); [now split|lia]).
    rewrite (dot_sum_upto _ c q) by lia.
    rewrite (dot_sum_upto x _ p)
      by (unfold np.matvec; rewrite length_map; lia).
    set (F := fun i j => nth i x 0 * entry B i j * nth j c 0).
    transitivity (np.sum_upto (fun j => np.sum_upto (fun i => F i j) p) q).
    + apply sum_upto_ext. intros j Hj. rewrite nth_vecmat by lia.
      rewrite (dot_sum_upto _ _ p)
        by (unfold np.col; rewrite length_map; lia).
      transitivity
        (nth j c 0 *
         np.sum_upto (fun i => nth i x 0 * nth i (np.col j B) 0) p); [ring|].
      rewrite <- sum_upto_scale. apply sum_upto_ext.
      intros i _. rewrite nth_col. unfold F. ring.
    + rewrite <- sum_upto_swap. apply sum_upto_ext. intros i Hi.
      unfold np.matvec.
      rewrite (nth_indep (map (fun r => np.dot r c) B) 0 (np.dot [] c))
        by (rewrite length_map; lia).
      rewrite (map_nth (fun r => np.dot r c)).
      rewrite (dot_sum_upto _ c q) by lia.
      rewrite <- sum_upto_scale. apply sum_upto_ext.
      intros j _. unfold F, entry. ring.
Qed.

Lemma length_back_subst (pl pr : vector) (X : matrix) (q : nat) :
  length pr = q -> Forall (fun r => length r = q) X ->
  length (np.back_subst pl pr X) = q.
Proof.
  unfold np.back_subst. revert pl pr.
  induction X as [|r X IH]; intros pl pr Hpr HX.
  - destruct pl; exact Hpr.
  - destruct pl as [|c pl]; [exact Hpr|]. simpl.
    inversion HX; subst. apply IH; [|assumption].
    rewrite length_vsub, length_vscale. lia.
Qed.

Lemma gauss_rows (n q : nat) (rows : list np.arow) (X : matrix) :
  Forall (fun r => length (snd r) = q) rows ->
  np.gauss n rows = Some X ->
  Forall (fun r => length r = q) X.
Proof.
  revert rows X. induction n as [|n IH]; intros rows X Hq E; simpl in E.
  - injection E as <-. constructor.
  - destruct (np.pick_pivot rows) as [[p others]|] eqn:P; [|discriminate].
    destruct (pick_pivot_some _ _ _ P) as (_ & _ & Hin).
    rewrite Forall_forall in Hq.
    assert (Hpr : length (np.vscale (/ hd 0 (fst p)) (snd p)) = q)
      by (rewrite length_vscale; apply Hq, Hin; now left).
    destruct (np.gauss n _) as [Y|] eqn:G; [|discriminate].
    injection E as <-.
    assert (HY : Forall (fun r => length r = q) Y).
    { apply (fun F => IH _ _ F G).
      apply Forall_forall. intros r Hr.
      apply in_map_iff in Hr as (r0 & <- & Hr0).
      unfold np.eliminate. simpl.
      rewrite length_vsub, length_vscale, Hpr.
      rewrite (Hq r0) by (apply Hin; now right). lia. }
    constructor; [now apply length_back_subst|exact HY].
Qed.

Lemma inv_shape (A R : matrix) :
  np.inv A = Ok R -> shape (length A) (length A) R.
Proof.
  unfold np.inv. destruct (forallb _ A); [|discriminate].
  destruct (np.gauss _ _) as [X|] eqn:G; [|discriminate].
  intros [= <-]. split; [now apply gauss_length in G|].
  apply (fun F => gauss_rows _ _ _ _ F G).
  apply Forall_forall. intros [a e] Hin. apply in_combine_r in Hin. simpl.
  unfold np.eye in Hin. apply in_map_iff in Hin as (i & <- & _).
  now rewrite length_map, length_seq.
Qed.

Lemma col_matmul (A B : matrix) (k : nat) :
  (k < np.ncols B)%nat ->
  np.col k (np.matmul A B) = np.matvec A (np.col k B).
Proof.
  intros Hk. unfold np.col at 1, np.matmul, np.matvec.
  rewrite map_map. apply map_ext. intros r. now apply nth_vecmat.
Qed.

(** Row [k] of [H] times column [k] of the solving matrix is the score at
    [k]. *)
Lemma response_score (D : designer) (h : vector) (n k : nat)
  (H W : matrix) (sc : vector) :
  convMatrix h n = Ok H ->
  scores D H = Ok sc ->
  solver D H = Ok W ->
  (k < length h + n - 1)%nat ->
  np.dot (nth k H []) (np.col k W) == nth k sc 0.
Proof.
  intros E Sc HW Hk.
  destruct (convMatrix_shape _ _ _ E) as (HL & Hn & Sh).
  set (m := (length h + n - 1)%nat) in *.
  assert (Hlen : length H = m) by apply Sh.
  destruct D as [|pow snr]; simpl in Sc, HW.
  - injection Sc as <-. injection HW as <-.
    assert (Hc : np.ncols (np.pinv H) = m).
    { apply (ncols_shape n); [|lia]. apply shape_pinv; [exact Sh|lia]. }
    unfold zf_scores. rewrite nth_diag.
    + unfold entry. rewrite nth_matmul by lia.
      rewrite nth_vecmat by lia. reflexivity.
    + unfold np.matmul. rewrite length_map. lia.
    + rewrite (ncols_shape m m); [lia| |lia].
      now apply shape_matmul.
  - destruct (MMSEEQ.float_pow pow 10 (- snr / 10)) as [gamma|e0] eqn:G;
      simpl in Sc, HW; [|discriminate].
    destruct (np.inv (normal_matrix gamma H)) as [R|e] eqn:I;
      simpl in Sc, HW; [|discriminate].
    injection Sc as <-. injection HW as <-.
    assert (Hc : np.ncols (np.transpose H) = m).
    { apply (ncols_shape n); [|lia]. apply shape_transpose; [exact Sh|lia]. }
    assert (HT : length (np.transpose H) = n).
    { apply (shape_transpose m n); [exact Sh|lia]. }
    assert (HR : shape n n R).
    { pose proof (inv_shape _ _ I) as S.
      assert (HNM : length (normal_matrix gamma H) = n).
      { unfold normal_matrix. rewrite (ncols_shape _ _ _ Sh) by lia.
        apply (normal_matrix_shape m n H); [exact Sh|lia]. }
      now rewrite HNM in S. }
    rewrite col_matmul by lia.
    rewrite <- (dot_vecmat_assoc _ _ R n n)
      by (try exact HR; unfold np.col; now rewrite length_map).
    unfold mmse_scores. rewrite nth_diag.
    + unfold entry. rewrite nth_matmul
        by (unfold np.matmul; rewrite length_map; lia).
      rewrite nth_vecmat by lia. rewrite nth_matmul by lia. reflexivity.
    + unfold np.matmul. rewrite !length_map. lia.
    + rewrite (ncols_shape m m); [lia| |lia].
      apply shape_matmul; [unfold np.matmul; now rewrite length_map|exact Hc].
Qed.

(** ** The scores, entry by entry *)

Lemma float_pow_ok (pow : Q -> Q -> option Q) (x y gamma : Q) :
  MMSEEQ.float_pow pow x y = Ok gamma -> pow x y = Some gamma.
Proof.
  unfold MMSEEQ.float_pow. destruct (pow x y); [|discriminate].
  now intros [= ->].
Qed.

Lemma entry_matmul_sum (A B : matrix) (n i j : nat) :
  (i < length A)%nat -> length (nth i A []) = n -> (j < np.ncols B)%nat ->
  entry (np.matmul A B) i j == product_entry A B n i j.
Proof.
  intros Hi Hrow Hj. unfold entry at 1.
  rewrite nth_matmul by exact Hi. rewrite nth_vecmat by exact Hj.
  rewrite (dot_sum_upto _ _ n) by lia.
  unfold product_entry. apply sum_upto_ext. intros l _.
  rewrite nth_col. reflexivity.
Qed.

Lemma entry_transpose (A : matrix) (j k : nat) :
  (j < np.ncols A)%nat -> entry (np.transpose A) j k = entry A k j.
Proof.
  intros Hj. unfold entry at 1, np.transpose.
  rewrite nth_map_seq by exact Hj. apply nth_col.
Qed.

Lemma gram_sum (A : matrix) (i j : nat) :
  gram A i j == np.sum_upto (fun l => entry A l i * entry A l j) (length A).
Proof.
  unfold gram.
  rewrite (dot_sum_upto _ _ (length A))
    by (unfold np.col; rewrite !length_map; lia).
  apply sum_upto_ext. intros l _. now rewrite !nth_col.
Qed.

Lemma shape_row (m n i : nat) (A : matrix) :
  shape m n A -> (i < m)%nat -> length (nth i A []) = n.
Proof.
  intros [Hm Hrows] Hi. rewrite Forall_forall in Hrows.
  apply Hrows, nth_In. lia.
Qed.

(** The scores a designer computes are the diagonal entries the
    specification names. *)
Lemma scores_fidelity (D : designer) (h : vector) (n : nat) (H : matrix)
  (sc : vector) :
  convMatrix h n = Ok H -> scores D H = Ok sc -> fidelity_scores D H n sc.
Proof.
  intros E Sc. destruct (convMatrix_shape _ _ _ E) as (HL & Hn & Sh).
  set (m := (length h + n - 1)%nat) in *.
  assert (Hlen : length H = m) by apply Sh.
  destruct D as [|pow snr]; simpl in Sc |- *.
  - injection Sc as <-. intros k Hk. rewrite Hlen in Hk.
    assert (Hc : np.ncols (np.pinv H) = m).
    { apply (ncols_shape n); [|lia]. apply shape_pinv; [exact Sh|lia]. }
    unfold zf_scores, zf_fidelity. rewrite nth_diag.
    + apply entry_matmul_sum; [lia| |lia]. now apply (shape_row m).
    + unfold np.matmul. rewrite length_map. lia.
    + rewrite (ncols_shape m m); [lia| |lia]. now apply shape_matmul.
  - destruct (MMSEEQ.float_pow pow 10 (- snr / 10)) as [gamma|e0] eqn:G;
      simpl in Sc; [|discriminate].
    destruct (np.inv (normal_matrix gamma H)) as [R|e] eqn:I;
      simpl in Sc; [|discriminate].
    injection Sc as <-.
    assert (HNM : normal_matrix gamma H
                  = np.madd (np.matmul (np.transpose H) H)
                            (np.mscale gamma (np.eye n)))
      by (unfold normal_matrix; now rewrite (ncols_shape _ _ _ Sh) by lia).
    assert (ShNM : shape n n (normal_matrix gamma H))
      by (rewrite HNM; apply (normal_matrix_shape m n H); [exact Sh|lia]).
    assert (HR : shape n n R).
    { pose proof (inv_shape _ _ I) as S.
      destruct ShNM as [Hl _]. now rewrite Hl in S. }
    assert (HcT : np.ncols (np.transpose H) = m).
    { apply (ncols_shape n); [|lia]. apply shape_transpose; [exact Sh|lia]. }
    assert (HcH : np.ncols H = n) by (apply (ncols_shape m); [exact Sh|lia]).
    assert (HcR : np.ncols R = n) by (apply (ncols_shape n); [exact HR|lia]).
    exists gamma, (normal_matrix gamma H), R.
    split; [now apply float_pow_ok|]. split; [exact ShNM|].
    split; [|split; [exact I|]].
    + intros i j Hi Hj. rewrite HNM.
      rewrite (normal_matrix_entry m n H gamma Sh) by lia.
      now rewrite gram_sum.
    + intros k Hk. rewrite Hlen in Hk.
      unfold mmse_scores, mmse_fidelity. rewrite nth_diag.
      * rewrite (entry_matmul_sum _ _ n).
        -- unfold product_entry at 1. apply sum_upto_ext. intros j Hj.
           rewrite (entry_matmul_sum H R n) by
             (try lia; now apply (shape_row m)).
           rewrite entry_transpose by lia. reflexivity.
        -- unfold np.matmul. rewrite length_map. lia.
        -- rewrite nth_matmul by lia. unfold np.vecmat.
           now rewrite length_map, length_seq.
        -- lia.
      * unfold np.matmul. rewrite !length_map. lia.
      * rewrite (ncols_shape m m); [lia| |lia].
        apply shape_matmul;
          [unfold np.matmul; now rewrite length_map|exact HcT].
Qed.

Lemma design_ok_scores (D : designer) (h : vector) (delay : option Z)
  (self : Equalizer) (mse : Q) :
  fst (design D h delay self) = Ok mse ->
  exists H sc, convMatrix h (N self) = Ok H /\ scores D H = Ok sc.
Proof.
  intros Hok.
  destruct (convMatrix h (N self)) as [H|e] eqn:E.
  - destruct (scores D H) as [sc|e] eqn:Sc; [now exists H, sc|].
    destruct (design_early_raise D h delay self e) as [Hd _].
    { right. now exists H. }
    rewrite Hd in Hok. discriminate.
  - destruct (design_early_raise D h delay self e) as [Hd _]; [now left|].
    rewrite Hd in Hok. discriminate.
Qed.

(** ** The delay error and the delay search *)

(** C3, as the code has it. For a channel of length [L >= 1] and [N >= 1]
    taps, an explicit delay [k >= L+N-1] raises the delay error in the
    zero-forcing designer, and in the MMSE designer whenever the power
    [10 ** (-snr/10)] has a positive value, and more generally whenever the
    delay search that precedes the test returns its scores; when it raises
    instead, the design raises that exception and leaves the instance as it
    was.  An explicit delay below [L+N-1] never raises the delay error, in
    either designer. *)
Theorem design_delay_bound (D : designer) (h : vector) (k : Z)
  (self : Equalizer) :
  (1 <= length h)%nat -> (1 <= N self)%nat ->
  exists H,
    convMatrix h (N self) = Ok H /\
    (D = ZF ->
     (Z.of_nat (length h) + Z.of_nat (N self) - 1 <= k)%Z ->
     fst (design D h (Some k) self) = Raise InvalidDelay) /\
    (positive_noise D ->
     (Z.of_nat (length h) + Z.of_nat (N self) - 1 <= k)%Z ->
     fst (design D h (Some k) self) = Raise InvalidDelay) /\
    (forall sc, scores D H = Ok sc ->
     (Z.of_nat (length h) + Z.of_nat (N self) - 1 <= k)%Z ->
     fst (design D h (Some k) self) = Raise InvalidDelay) /\
    (forall e, scores D H = Raise e ->
     design D h (Some k) self = (Raise e, self) /\ e <> InvalidDelay) /\
    ((k < Z.of_nat (length h) + Z.of_nat (N self) - 1)%Z ->
     fst (design D h (Some k) self) <> Raise InvalidDelay).
Proof.
  intros HL HN.
  destruct (convMatrix_returns h (N self) HL HN) as [H E].
  exists H. split; [exact E|].
  assert (Hret : forall sc, scores D H = Ok sc ->
            (Z.of_nat (length h) + Z.of_nat (N self) - 1 <= k)%Z ->
            fst (design D h (Some k) self) = Raise InvalidDelay).
  { intros sc Sc Hk.
    destruct (design_steps D h self H sc E Sc)
      as (i & W & quad & _ & _ & _ & _ & Hbig & _ & _).
    rewrite Hbig by lia. reflexivity. }
  assert (Hpos : positive_noise D ->
            (Z.of_nat (length h) + Z.of_nat (N self) - 1 <= k)%Z ->
            fst (design D h (Some k) self) = Raise InvalidDelay).
  { intros Hp Hk.
    destruct (scores_return D h (N self) H E Hp) as [sc Sc].
    now apply (Hret sc). }
  split; [intros ->; apply Hpos; exact I|].
  split; [exact Hpos|]. split; [exact Hret|]. split.
  - intros e Sc. apply design_early_raise. right. now exists H.
  - intros Hk Hfail.
    destruct (scores D H) as [sc|e] eqn:Sc.
    + destruct (design_steps D h self H sc E Sc)
        as (i & W & quad & _ & _ & _ & _ & _ & Hsmall & _).
      rewrite Hsmall in Hfail by lia.
      apply finish_raise in Hfail as [_ Hne]. congruence.
    + destruct (design_early_raise D h (Some k) self e) as [Hd Hne].
      { right. now exists H. }
      rewrite Hd in Hfail. simpl in Hfail. congruence.
Qed.

Lemma design_delay_bound_witness :
  (1 <= length [1; 0.5]%Q)%nat /\ (1 <= N (init 2))%nat /\
  positive_noise (MMSE pow_floor 20) /\
  (Z.of_nat (length [1; 0.5]%Q) + Z.of_nat (N (init 2)) - 1 <= 3)%Z /\
  fst (design (MMSE pow_floor 20) [1; 0.5] (Some 3%Z) (init 2))
  = Raise InvalidDelay.
Proof.
  assert (HL : (1 <= length [1; 0.5]%Q)%nat) by (simpl; lia).
  assert (HN : (1 <= N (init 2))%nat) by (simpl; lia).
  assert (Hpos : positive_noise (MMSE pow_floor 20))
    by (exists (1 # 100); split; reflexivity).
  assert (Hk : (Z.of_nat (length [1; 0.5]%Q) + Z.of_nat (N (init 2)) - 1
                <= 3)%Z) by (simpl; lia).
  split; [exact HL|]. split; [exact HN|]. split; [exact Hpos|].
  split; [exact Hk|].
  destruct (design_delay_bound (MMSE pow_floor 20) [1; 0.5] 3 (init 2) HL HN)
    as (H & _ & _ & Hp & _).
  exact (Hp Hpos Hk).
Defined.

(** C3, as stated, fails for the MMSE designer: at 4000 dB the power
    [10 ** (-400.0)] is rounded to [0.0], for the channel [0] the matrix
    [H.T @ H + 0 I] is singular, and the design with one tap and the delay
    [1 = L+N-1] raises [LinAlgError] at the delay search, before the delay
    is tested. *)
Lemma mmse_singular_before_delay_test :
  (1 <= length [0]%Q)%nat /\ (1 <= N (init 1))%nat /\
  (Z.of_nat (length [0]%Q) + Z.of_nat (N (init 1)) - 1 <= 1)%Z /\
  pow_double 10 (- 4000 / 10) = Some 0 /\
  fst (design (MMSE pow_double 4000) [0] (Some 1%Z) (init 1))
  = Raise (LinAlgError "Singular matrix") /\
  fst (design (MMSE pow_double 4000) [0] (Some 1%Z) (init 1))
  <> Raise InvalidDelay.
Proof.
  split; [simpl; lia|]. split; [simpl; lia|]. split; [simpl; lia|].
  split; [vm_compute; reflexivity|].
  assert (E : fst (design (MMSE pow_double 4000) [0] (Some 1%Z) (init 1))
              = Raise (LinAlgError "Singular matrix"))
    by (vm_compute; reflexivity).
  split; [exact E|]. rewrite E. discriminate.
Qed.

(** ** The stored optimum *)

(** C6. After every successful design, by either designer and whatever
    delay the caller passed, the stored [opt_delay] is the index
    [np.argmax] returns on the scores of this call; these are the
    per-delay fidelity scores, entry [k] being the [k]-th diagonal entry of
    [H . pinv(H)], or of [H . R . H^T] for the inverse [R] of
    [H^T H + gamma I]; the index is the first one at which they are maximal,
    and it lies in [0, L+N-2]. *)
Theorem design_opt_delay (D : designer) (h : vector) (delay : option Z)
  (self : Equalizer) (mse : Q) :
  fst (design D h delay self) = Ok mse ->
  let self' := snd (design D h delay self) in
  exists H sc i,
    convMatrix h (N self) = Ok H /\
    shape (length h + N self - 1) (N self) H /\
    scores D H = Ok sc /\
    length sc = (length h + N self - 1)%nat /\
    fidelity_scores D H (N self) sc /\
    np.argmax sc = Ok i /\
    first_max sc i /\
    opt_delay self' = Z.of_nat i /\
    (0 <= opt_delay self' <= Z.of_nat (length h) + Z.of_nat (N self) - 2)%Z.
Proof.
  intros Hok.
  destruct (design_outcome D h delay self)
    as [(e & He & Hne)
       |(H & sc & i & W & quad & E & Sc & Hlen & Ha & Hf & _ & Hd)].
  - rewrite He in Hok. discriminate.
  - cbv zeta in Hd. destruct Hd as [Hd|(k0 & Hd)]; rewrite Hd in Hok |- *.
    + discriminate.
    + exists H, sc, i. rewrite finish_opt_delay. simpl.
      destruct Hf as (Hi & Hmax & Hfirst).
      destruct (convMatrix_shape _ _ _ E) as (_ & _ & Sh).
      split; [exact E|]. split; [exact Sh|]. split; [exact Sc|].
      split; [exact Hlen|].
      split; [now apply (scores_fidelity D h)|].
      split; [exact Ha|].
      split; [repeat split; assumption|].
      split; [reflexivity|lia].
Qed.

Lemma design_opt_delay_witness :
  exists mse,
    fst (design (MMSE pow_floor 20) [1; 0.5] (Some 0%Z) (init 2)) = Ok mse /\
    exists H sc i,
      convMatrix [1; 0.5] 2 = Ok H /\
      scores (MMSE pow_floor 20) H = Ok sc /\
      fidelity_scores (MMSE pow_floor 20) H 2 sc /\
      np.argmax sc = Ok i /\
      opt_delay (snd (design (MMSE pow_floor 20) [1; 0.5] (Some 0%Z) (init 2)))
      = Z.of_nat i.
Proof.
  set (out := design (MMSE pow_floor 20) [1; 0.5] (Some 0%Z) (init 2)).
  assert (Hok : fst out = Ok (match fst out with Ok x => x | Raise _ => 0 end))
    by (vm_compute; reflexivity).
  eexists. split; [exact Hok|].
  destruct (design_opt_delay (MMSE pow_floor 20) [1; 0.5] (Some 0%Z) (init 2)
              _ Hok) as (H & sc & i & E & _ & Sc & _ & Hfid & Ha & _ & Hd & _).
  exists H, sc, i. auto.
Defined.

(** ** Negative delays *)

Lemma impulse_at_unit (m k : nat) :
  (k < m)%nat -> impulse_at m k (unit_impulse m k).
Proof.
  intros Hk. split.
  - unfold unit_impulse. now rewrite length_update, repeat_length.
  - intros j _. now apply unit_impulse_nth.
Qed.

Lemma design_negative_same (D : designer) (h : vector) (k : Z)
  (self : Equalizer) :
  (- Z.of_nat (length h + N self - 1) <= k < 0)%Z ->
  design D h (Some k) self
  = design D h (Some (Z.of_nat (length h + N self - 1) + k)%Z) self.
Proof.
  intros Hk.
  destruct (convMatrix h (N self)) as [H|e] eqn:E.
  - destruct (scores D H) as [sc|e] eqn:Sc.
    + destruct (design_steps D h self H sc E Sc)
        as (i & W & quad & _ & _ & _ & _ & _ & Hsmall & _).
      cbv zeta in Hsmall. rewrite !Hsmall by lia.
      assert (Hk' : (0 <= Z.of_nat (length h + N self - 1) + k
                     < Z.of_nat (length h + N self - 1))%Z) by lia.
      rewrite (finish_ok _ _ _ k _ _ (setitem_impulse_negative _ k Hk)).
      rewrite (finish_ok _ _ _ _ _ _ (setitem_impulse _ _ Hk')).
      reflexivity.
    + destruct (design_early_raise D h (Some k) self e) as [-> _];
        [right; now exists H|].
      destruct (design_early_raise D h
                  (Some (Z.of_nat (length h + N self - 1) + k)%Z) self e)
        as [-> _]; [right; now exists H|].
      reflexivity.
  - destruct (design_early_raise D h (Some k) self e) as [-> _]; [now left|].
    destruct (design_early_raise D h
                (Some (Z.of_nat (length h + N self - 1) + k)%Z) self e)
      as [-> _]; [now left|].
    reflexivity.
Qed.

(** C10, as the code has it. For a channel of length [L >= 1], [N >= 1]
    taps and an explicit delay [k] with [-(L+N-1) <= k <= -1], neither
    designer raises the delay error, and the whole outcome is that of the
    delay [L+N-1+k].  Whenever the delay search returns its scores (always
    in zero forcing; in MMSE whenever [10 ** (-snr/10)] has a positive
    value) the design returns: its target vector [d] has [L+N-1] entries, 1
    at index [L+N-1+k] and 0 elsewhere, the weights are [W @ d], and the
    error is one minus the score at [L+N-1+k]. *)
Theorem design_negative_delay (D : designer) (h : vector) (k : Z)
  (self : Equalizer) :
  (1 <= length h)%nat -> (1 <= N self)%nat ->
  let m := (length h + N self - 1)%nat in
  (- Z.of_nat m <= k <= -1)%Z ->
  let out := design D h (Some k) self in
  fst out <> Raise InvalidDelay /\
  out = design D h (Some (Z.of_nat m + k)%Z) self /\
  (forall H sc,
     convMatrix h (N self) = Ok H -> scores D H = Ok sc ->
     exists mse W d,
       fst out = Ok mse /\
       solver D H = Ok W /\
       impulse_at m (Z.to_nat (Z.of_nat m + k)) d /\
       w (snd out) = np.matvec W d /\
       mse == 1 - nth (Z.to_nat (Z.of_nat m + k)) sc 0) /\
  (positive_noise D ->
   exists H sc, convMatrix h (N self) = Ok H /\ scores D H = Ok sc).
Proof.
  intros HL HN m Hk out.
  destruct (convMatrix_returns h (N self) HL HN) as [H E].
  assert (Hsame : out = design D h (Some (Z.of_nat m + k)%Z) self)
    by (apply design_negative_same; fold m; lia).
  assert (Hret : forall H' sc,
     convMatrix h (N self) = Ok H' -> scores D H' = Ok sc ->
     exists mse W d,
       fst out = Ok mse /\
       solver D H' = Ok W /\
       impulse_at m (Z.to_nat (Z.of_nat m + k)) d /\
       w (snd out) = np.matvec W d /\
       mse == 1 - nth (Z.to_nat (Z.of_nat m + k)) sc 0).
  { intros H' sc E' Sc.
    destruct (design_steps D h self H' sc E' Sc)
      as (i & W & quad & _ & _ & _ & HW & _ & Hsmall & _).
    cbv zeta in Hsmall. fold m in Hsmall.
    destruct (design_explicit_mse D h self H' sc (Z.of_nat m + k) E' Sc)
      as (mse & Hm & Hs); [fold m; lia|].
    exists mse, W, (unit_impulse m (Z.to_nat (Z.of_nat m + k))).
    split; [rewrite Hsame; exact Hm|]. split; [exact HW|].
    split; [apply impulse_at_unit; lia|]. split; [|exact Hs].
    assert (Hk' : (- Z.of_nat m <= k < 0)%Z) by lia.
    unfold out. rewrite Hsmall by lia.
    now rewrite (finish_ok _ _ _ k _ _ (setitem_impulse_negative m k Hk')). }
  split; [|split; [exact Hsame|split; [exact Hret|]]].
  - intros Hfail.
    destruct (scores D H) as [sc|e] eqn:Sc.
    + destruct (Hret H sc E Sc) as (mse & _ & _ & Hm & _).
      rewrite Hm in Hfail. discriminate.
    + destruct (design_early_raise D h (Some k) self e) as [Hd Hne];
        [right; now exists H|].
      unfold out in Hfail. rewrite Hd in Hfail. simpl in Hfail. congruence.
  - intros Hpos. destruct (scores_return D h (N self) H E Hpos) as [sc Sc].
    now exists H, sc.
Qed.

Lemma design_negative_delay_witness :
  (1 <= length [1; 0.5]%Q)%nat /\ (1 <= N (init 2))%nat /\
  (- Z.of_nat (length [1; 0.5]%Q + N (init 2) - 1) <= -1 <= -1)%Z /\
  fst (design (MMSE pow_floor 20) [1; 0.5] (Some (-1)%Z) (init 2))
  <> Raise InvalidDelay /\
  design (MMSE pow_floor 20) [1; 0.5] (Some (-1)%Z) (init 2)
  = design (MMSE pow_floor 20) [1; 0.5] (Some 2%Z) (init 2).
Proof.
  assert (HL : (1 <= length [1; 0.5]%Q)%nat) by (simpl; lia).
  assert (HN : (1 <= N (init 2))%nat) by (simpl; lia).
  assert (Hk : (- Z.of_nat (length [1; 0.5]%Q + N (init 2) - 1)
                <= -1 <= -1)%Z) by (simpl; lia).
  split; [exact HL|]. split; [exact HN|]. split; [exact Hk|].
  destruct (design_negative_delay (MMSE pow_floor 20) [1; 0.5] (-1) (init 2)
              HL HN Hk) as (Hne & Hsame & _).
  split; [exact Hne|exact Hsame].
Defined.

(** C10, as stated, fails for the MMSE designer: at 4000 dB the noise ratio
    is rounded to [0.0], and for the channel [0] with one tap the design
    with the delay [-1] does not complete: it raises [LinAlgError] at the
    delay search and leaves the instance as it was. *)
Lemma mmse_singular_negative_delay :
  (1 <= length [0]%Q)%nat /\ (1 <= N (init 1))%nat /\
  (- Z.of_nat (length [0]%Q + N (init 1) - 1) <= -1 <= -1)%Z /\
  design (MMSE pow_double 4000) [0] (Some (-1)%Z) (init 1)
  = (Raise (LinAlgError "Singular matrix"), init 1) /\
  ~ (exists mse,
       fst (design (MMSE pow_double 4000) [0] (Some (-1)%Z) (init 1))
       = Ok mse).
Proof.
  split; [simpl; lia|]. split; [simpl; lia|]. split; [simpl; lia|].
  assert (E : design (MMSE pow_double 4000) [0] (Some (-1)%Z) (init 1)
              = (Raise (LinAlgError "Singular matrix"), init 1))
    by (vm_compute; reflexivity).
  split; [exact E|]. rewrite E. intros [mse Hm]. discriminate.
Qed.

(** ** When the delay search returns *)

(** X15. For a channel of length [L >= 1] and [N >= 1] taps, in zero
    forcing always and in MMSE whenever the power [10 ** (-snr/10)] has a
    positive value, the delay search returns its scores (the matrix
    [H.T @ H + gamma I] is non-singular and [np.linalg.inv] does not
    raise), a design without a delay returns an error value, and so does a
    design with any explicit delay from [-(L+N-1)] to [L+N-2]. *)
Theorem design_returns (D : designer) (h : vector) (self : Equalizer) :
  (1 <= length h)%nat -> (1 <= N self)%nat -> positive_noise D ->
  (exists H sc, convMatrix h (N self) = Ok H /\ scores D H = Ok sc) /\
  (exists mse, fst (design D h None self) = Ok mse) /\
  (forall k,
     (- Z.of_nat (length h + N self - 1) <= k
      < Z.of_nat (length h + N self - 1))%Z ->
     exists mse, fst (design D h (Some k) self) = Ok mse).
Proof.
  intros HL HN Hpos.
  destruct (convMatrix_returns h (N self) HL HN) as [H E].
  destruct (scores_return D h (N self) H E Hpos) as [sc Sc].
  destruct (design_steps D h self H sc E Sc)
    as (i & W & quad & Hlen & _ & Hf & _ & _ & Hsmall & Hnone).
  cbv zeta in Hsmall, Hnone. destruct Hf as (Hi & _). rewrite Hlen in Hi.
  split; [now exists H, sc|]. split.
  - rewrite Hnone.
    assert (Hi' : (0 <= Z.of_nat i < Z.of_nat (length h + N self - 1))%Z)
      by lia.
    rewrite (finish_ok _ _ _ _ _ _ (setitem_impulse _ _ Hi')).
    eexists. reflexivity.
  - intros k Hk.
    destruct (Z.lt_ge_cases k 0) as [Hneg|Hnn].
    + assert (Hk' : (- Z.of_nat (length h + N self - 1) <= k < 0)%Z) by lia.
      rewrite Hsmall by lia.
      rewrite (finish_ok _ _ _ _ _ _ (setitem_impulse_negative _ _ Hk')).
      eexists. reflexivity.
    + assert (Hk' : (0 <= k < Z.of_nat (length h + N self - 1))%Z) by lia.
      rewrite Hsmall by lia.
      rewrite (finish_ok _ _ _ _ _ _ (setitem_impulse _ _ Hk')).
      eexists. reflexivity.
Qed.

Lemma design_returns_witness :
  (1 <= length [1; 0.5]%Q)%nat /\ (1 <= N (init 2))%nat /\
  positive_noise (MMSE pow_floor 20) /\
  exists mse,
    fst (design (MMSE pow_floor 20) [1; 0.5] None (init 2)) = Ok mse.
Proof.
  assert (HL : (1 <= length [1; 0.5]%Q)%nat) by (simpl; lia).
  assert (HN : (1 <= N (init 2))%nat) by (simpl; lia).
  assert (Hpos : positive_noise (MMSE pow_floor 20))
    by (exists (1 # 100); split; reflexivity).
  split; [exact HL|]. split; [exact HN|]. split; [exact Hpos|].
  exact (proj1 (proj2 (design_returns (MMSE pow_floor 20) [1; 0.5] (init 2)
                         HL HN Hpos))).
Defined.

(** ** Delays below the range *)

(** X5. The delay has no lower check: whenever the delay search of a
    design returns its scores, an explicit delay below [-(L+N-1)] passes
    the test against [L+N-1] and fails at [d[k0] = 1] with [IndexError]; by
    then [opt_delay] holds the index [np.argmax] gives on those scores, and
    the weights are untouched. *)
Theorem design_delay_below_range (D : designer) (h : vector) (k : Z)
  (self : Equalizer) (H : matrix) (sc : vector) :
  convMatrix h (N self) = Ok H ->
  scores D H = Ok sc ->
  (k < - (Z.of_nat (length h) + Z.of_nat (N self) - 1))%Z ->
  let out := design D h (Some k) self in
  (exists msg, fst out = Raise (IndexError msg)) /\
  w (snd out) = w self /\
  exists i, np.argmax sc = Ok i /\ opt_delay (snd out) = Z.of_nat i.
Proof.
  intros E Sc Hk out.
  destruct (convMatrix_shape _ _ _ E) as (HL & HN & _).
  destruct (design_steps D h self H sc E Sc)
    as (i & W & quad & _ & Ha & _ & _ & _ & Hsmall & _).
  cbv zeta in Hsmall. unfold out. rewrite Hsmall by lia.
  unfold finish, np.setitem, np.norm_index. rewrite repeat_length.
  destruct (Z.ltb_spec k (- Z.of_nat (length h + N self - 1))); [|lia].
  simpl. split; [eexists; reflexivity|]. split; [reflexivity|].
  exists i. auto.
Qed.

Lemma design_delay_below_range_witness :
  exists sc,
    convMatrix [1; 0.5] (N (init 2)) = Ok [[1; 0]; [0.5; 1]; [0; 0.5]] /\
    scores (MMSE pow_floor 20) [[1; 0]; [0.5; 1]; [0; 0.5]] = Ok sc /\
    (-4 < - (Z.of_nat (length [1; 0.5]%Q) + Z.of_nat (N (init 2)) - 1))%Z /\
    exists msg,
      fst (design (MMSE pow_floor 20) [1; 0.5] (Some (-4)%Z) (init 2))
      = Raise (IndexError msg).
Proof.
  set (H0 := [[1; 0]; [0.5; 1]; [0; 0.5]]).
  assert (E : convMatrix [1; 0.5] (N (init 2)) = Ok H0) by reflexivity.
  assert (Sc : scores (MMSE pow_floor 20) H0
               = Ok (match scores (MMSE pow_floor 20) H0 with
                     | Ok x => x
                     | Raise _ => []
                     end)) by (vm_compute; reflexivity).
  assert (Hk : (-4 < - (Z.of_nat (length [1; 0.5]%Q)
                        + Z.of_nat (N (init 2)) - 1))%Z) by (simpl; lia).
  eexists. split; [exact E|]. split; [exact Sc|]. split; [exact Hk|].
  exact (proj1 (design_delay_below_range (MMSE pow_floor 20) [1; 0.5] (-4)
                  (init 2) H0 _ E Sc Hk)).
Defined.

(** ** The default delay *)

(** X8. Whenever the delay search of a design returns its scores, a
    design without a delay returns, in both designers (the MMSE designer
    does test the computed optimum against [L+N-1], and it passes), and it
    is the design with the explicit delay [opt_delay] that it stores:
    passing [opt_delay] back gives the same error and the same instance. *)
Theorem design_default_is_opt_delay (D : designer) (h : vector)
  (self : Equalizer) (H : matrix) (sc : vector) :
  convMatrix h (N self) = Ok H ->
  scores D H = Ok sc ->
  let out := design D h None self in
  (exists mse, fst out = Ok mse) /\
  design D h (Some (opt_delay (snd out))) self = out.
Proof.
  intros E Sc out.
  destruct (convMatrix_shape _ _ _ E) as (HL & HN & _).
  destruct (design_steps D h self H sc E Sc)
    as (i & W & quad & Hlen & _ & Hf & _ & _ & Hsmall & Hnone).
  cbv zeta in Hsmall, Hnone.
  destruct Hf as (Hi & _). rewrite Hlen in Hi.
  unfold out. rewrite Hnone, finish_opt_delay. simpl opt_delay.
  rewrite Hsmall by lia. split; [|reflexivity].
  rewrite (finish_ok _ _ _ _ _ (unit_impulse (length h + N self - 1) i))
    by (rewrite setitem_impulse by lia; now rewrite Nat2Z.id).
  eexists. reflexivity.
Qed.

Lemma design_default_is_opt_delay_witness :
  exists sc,
    convMatrix [1; 0.5] (N (init 2)) = Ok [[1; 0]; [0.5; 1]; [0; 0.5]] /\
    scores (MMSE pow_floor 20) [[1; 0]; [0.5; 1]; [0; 0.5]] = Ok sc /\
    exists mse,
      fst (design (MMSE pow_floor 20) [1; 0.5] None (init 2)) = Ok mse.
Proof.
  set (H0 := [[1; 0]; [0.5; 1]; [0; 0.5]]).
  assert (E : convMatrix [1; 0.5] (N (init 2)) = Ok H0) by reflexivity.
  assert (Sc : scores (MMSE pow_floor 20) H0
               = Ok (match scores (MMSE pow_floor 20) H0 with
                     | Ok x => x
                     | Raise _ => []
                     end)) by (vm_compute; reflexivity).
  eexists. split; [exact E|]. split; [exact Sc|].
  exact (proj1 (design_default_is_opt_delay (MMSE pow_floor 20) [1; 0.5]
                  (init 2) H0 _ E Sc)).
Defined.

(** ** The error returned and the scores, for every delay in range *)

(** X9. Whenever the delay search of a design returns its scores [sc],
    a design with an explicit delay [k] from [-(L+N-1)] to [L+N-2] returns
    one minus the score at the index [k] denotes under Python's index rule
    ([k] itself, or [L+N-1+k] when [k] is negative), in both designers: the
    quadratic form [d @ H @ ... @ d] it evaluates is the diagonal entry the
    delay search has scored. *)
Theorem design_mse_is_score (D : designer) (h : vector) (k : Z)
  (self : Equalizer) (H : matrix) (sc : vector) (j : nat) :
  convMatrix h (N self) = Ok H ->
  scores D H = Ok sc ->
  np.norm_index (length h + N self - 1) k = Some j ->
  exists mse,
    fst (design D h (Some k) self) = Ok mse /\
    mse == 1 - nth j sc 0.
Proof.
  intros E Sc Hj.
  set (m := (length h + N self - 1)%nat) in *.
  unfold np.norm_index in Hj.
  destruct (Z.ltb_spec k (- Z.of_nat m)); [discriminate|].
  destruct (Z.ltb_spec k 0).
  - injection Hj as <-.
    rewrite (design_negative_same D h k self) by (fold m; lia). fold m.
    replace (k + Z.of_nat m)%Z with (Z.of_nat m + k)%Z by lia.
    apply (design_explicit_mse D h self H sc); [exact E|exact Sc|fold m; lia].
  - destruct (Z.ltb_spec k (Z.of_nat m)); [|discriminate].
    injection Hj as <-.
    apply (design_explicit_mse D h self H sc); [exact E|exact Sc|fold m; lia].
Qed.

Lemma design_mse_is_score_witness :
  exists sc,
    convMatrix [1; 0.5] (N (init 2)) = Ok [[1; 0]; [0.5; 1]; [0; 0.5]] /\
    scores (MMSE pow_floor 20) [[1; 0]; [0.5; 1]; [0; 0.5]] = Ok sc /\
    np.norm_index (length [1; 0.5]%Q + N (init 2) - 1) (-2) = Some 1%nat /\
    exists mse,
      fst (design (MMSE pow_floor 20) [1; 0.5] (Some (-2)%Z) (init 2))
      = Ok mse /\
      mse == 1 - nth 1 sc 0.
Proof.
  set (H0 := [[1; 0]; [0.5; 1]; [0; 0.5]]).
  assert (E : convMatrix [1; 0.5] (N (init 2)) = Ok H0) by reflexivity.
  assert (Sc : scores (MMSE pow_floor 20) H0
               = Ok (match scores (MMSE pow_floor 20) H0 with
                     | Ok x => x
                     | Raise _ => []
                     end)) by (vm_compute; reflexivity).
  assert (Hj : np.norm_index (length [1; 0.5]%Q + N (init 2) - 1) (-2)
               = Some 1%nat) by reflexivity.
  eexists. split; [exact E|]. split; [exact Sc|]. split; [exact Hj|].
  exact (design_mse_is_score (MMSE pow_floor 20) [1; 0.5] (-2) (init 2)
           H0 _ 1 E Sc Hj).
Defined.

(** X10. The default delay is the best one: whenever the delay search of
    a design returns its scores, the error returned by a design without a
    delay is at most the error returned for any explicit delay from
    [-(L+N-1)] to [L+N-2], in both designers. *)
Theorem design_default_minimises_mse (D : designer) (h : vector) (k : Z)
  (self : Equalizer) (H : matrix) (sc : vector) :
  convMatrix h (N self) = Ok H ->
  scores D H = Ok sc ->
  (- Z.of_nat (length h + N self - 1) <= k
   < Z.of_nat (length h + N self - 1))%Z ->
  exists mse0 msek,
    fst (design D h None self) = Ok mse0 /\
    fst (design D h (Some k) self) = Ok msek /\
    mse0 <= msek.
Proof.
  intros E Sc Hk.
  destruct (convMatrix_shape _ _ _ E) as (HL & HN & _).
  set (m := (length h + N self - 1)%nat) in *.
  destruct (design_steps D h self H sc E Sc)
    as (i & W & quad & Hlen & _ & Hf & _ & _ & Hsmall & Hnone).
  cbv zeta in Hsmall, Hnone. fold m in Hsmall, Hnone, Hlen.
  destruct Hf as (Hi & Hmax & _). rewrite Hlen in Hi.
  assert (Hdef : design D h None self = design D h (Some (Z.of_nat i)) self)
    by (rewrite Hnone, Hsmall by lia; reflexivity).
  destruct (design_explicit_mse D h self H sc (Z.of_nat i) E Sc)
    as (mse0 & H0 & M0); [fold m; lia|].
  assert (Hex : exists j msek,
            (j < m)%nat /\
            fst (design D h (Some k) self) = Ok msek /\
            msek == 1 - nth j sc 0).
  { destruct (Z.lt_ge_cases k 0) as [Hneg|Hnn].
    - destruct (design_explicit_mse D h self H sc (Z.of_nat m + k) E Sc)
        as (msek & H1 & M1); [fold m; lia|].
      exists (Z.to_nat (Z.of_nat m + k)), msek. split; [lia|].
      split; [|exact M1].
      rewrite (design_negative_same D h k self) by (fold m; lia).
      exact H1.
    - destruct (design_explicit_mse D h self H sc k E Sc)
        as (msek & H1 & M1); [fold m; lia|].
      exists (Z.to_nat k), msek. split; [lia|]. auto. }
  destruct Hex as (j & msek & Hj & H1 & M1).
  exists mse0, msek. split; [now rewrite Hdef|]. split; [exact H1|].
  rewrite M0, M1, Nat2Z.id.
  assert (Hle : nth j sc 0 <= nth i sc 0) by (apply Hmax; rewrite Hlen; lia).
  lra.
Qed.

Lemma design_default_minimises_mse_witness :
  exists sc,
    convMatrix [1; 0.5] (N (init 2)) = Ok [[1; 0]; [0.5; 1]; [0; 0.5]] /\
    scores ZF [[1; 0]; [0.5; 1]; [0; 0.5]] = Ok sc /\
    (- Z.of_nat (length [1; 0.5]%Q + N (init 2) - 1) <= 2
     < Z.of_nat (length [1; 0.5]%Q + N (init 2) - 1))%Z /\
    exists mse0 msek,
      fst (design ZF [1; 0.5] None (init 2)) = Ok mse0 /\
      fst (design ZF [1; 0.5] (Some 2%Z) (init 2)) = Ok msek /\
      mse0 <= msek.
Proof.
  set (H0 := [[1; 0]; [0.5; 1]; [0; 0.5]]).
  assert (E : convMatrix [1; 0.5] (N (init 2)) = Ok H0) by reflexivity.
  assert (Sc : scores ZF H0 = Ok (zf_scores H0)) by reflexivity.
  assert (Hk : (- Z.of_nat (length [1; 0.5]%Q + N (init 2) - 1) <= 2
                < Z.of_nat (length [1; 0.5]%Q + N (init 2) - 1))%Z)
    by (simpl; lia).
  eexists. split; [exact E|]. split; [exact Sc|]. split; [exact Hk|].
  exact (design_default_minimises_mse ZF [1; 0.5] 2 (init 2) H0 _ E Sc Hk).
Defined.

(** ** After a successful design *)

(** X11. After every successful design with an explicit delay [k] in
    [0, L+N-2], by either designer, the weights stored are column [k] of the
    matrix the designer solves with: [pinv(H)] for zero forcing,
    [inv(H.T @ H + gamma I) @ H.T] for MMSE. *)
Theorem design_weights_column (D : designer) (h : vector) (k : Z)
  (self : Equalizer) (mse : Q) :
  fst (design D h (Some k) self) = Ok mse ->
  (0 <= k < Z.of_nat (length h + N self - 1))%Z ->
  exists H W,
    convMatrix h (N self) = Ok H /\
    solver D H = Ok W /\
    veq (w (snd (design D h (Some k) self))) (np.col (Z.to_nat k) W).
Proof.
  intros Hok Hk.
  destruct (design_ok_scores D h (Some k) self mse Hok) as (H & sc & E & Sc).
  destruct (design_steps D h self H sc E Sc)
    as (i & W & quad & _ & _ & _ & HW & _ & Hsmall & _).
  cbv zeta in Hsmall. exists H, W. split; [exact E|]. split; [exact HW|].
  rewrite Hsmall by lia.
  rewrite (finish_ok _ _ _ _ _ _ (setitem_impulse _ k Hk)). simpl.
  apply matvec_impulse. lia.
Qed.

Lemma design_weights_column_witness :
  exists mse,
    fst (design ZF [1; 0.5] (Some 1%Z) (init 2)) = Ok mse /\
    (0 <= 1 < Z.of_nat (length [1; 0.5]%Q + N (init 2) - 1))%Z /\
    exists H W,
      convMatrix [1; 0.5] (N (init 2)) = Ok H /\
      solver ZF H = Ok W /\
      veq (w (snd (design ZF [1; 0.5] (Some 1%Z) (init 2)))) (np.col 1 W).
Proof.
  set (out := design ZF [1; 0.5] (Some 1%Z) (init 2)).
  assert (Hok : fst out = Ok (match fst out with Ok x => x | Raise _ => 0 end))
    by (vm_compute; reflexivity).
  assert (Hk : (0 <= 1 < Z.of_nat (length [1; 0.5]%Q + N (init 2) - 1))%Z)
    by (simpl; lia).
  eexists. split; [exact Hok|]. split; [exact Hk|].
  exact (design_weights_column ZF [1; 0.5] 1 (init 2) _ Hok Hk).
Defined.

(** X13. Designing and then equalizing the channel: after every
    successful design with an explicit delay [k] in [0, L+N-2], by either
    designer, [equalize(h)] returns the [L+N-1] samples of the combined
    response, and its sample at index [k] is one minus the error the design
    returned. *)
Theorem equalize_at_delay (D : designer) (h : vector) (k : Z)
  (self : Equalizer) (mse : Q) :
  fst (design D h (Some k) self) = Ok mse ->
  (0 <= k < Z.of_nat (length h + N self - 1))%Z ->
  exists y,
    equalize (snd (design D h (Some k) self)) h = Ok y /\
    length y = (length h + N self - 1)%nat /\
    nth (Z.to_nat k) y 0 == 1 - mse.
Proof.
  intros Hok Hk.
  destruct (design_ok_scores D h (Some k) self mse Hok) as (H & sc & E & Sc).
  destruct (convMatrix_shape _ _ _ E) as (HL & HN & [HlenH _]).
  destruct (design_steps D h self H sc E Sc)
    as (i & W & quad & _ & _ & _ & HW & _ & Hsmall & _).
  cbv zeta in Hsmall.
  destruct (design_explicit_mse D h self H sc k E Sc Hk) as (mse' & Hm & Hs).
  assert (mse' = mse) by congruence. subst mse'.
  set (m := (length h + N self - 1)%nat) in *.
  assert (Hout : snd (design D h (Some k) self)
                 = mkEqualizer (N self)
                     (np.matvec W (unit_impulse m (Z.to_nat k)))
                     (Z.of_nat i)).
  { rewrite Hsmall by lia.
    now rewrite (finish_ok _ _ _ _ _ _ (setitem_impulse _ k Hk)). }
  assert (HlenW : length (np.matvec W (unit_impulse m (Z.to_nat k)))
                  = N self).
  { unfold np.matvec. rewrite length_map.
    now apply (solver_rows D h _ H). }
  destruct (convolve_full h (np.matvec W (unit_impulse m (Z.to_nat k))))
    as (y & Hy & Hly & Hv); [lia|lia|].
  exists y. split; [rewrite Hout; exact Hy|].
  split; [rewrite Hly, HlenW; reflexivity|].
  pose proof (matvec_conv_matrix h _ (N self) H E HlenW) as Hc.
  rewrite (veq_nth_eq _ _ (Z.to_nat k)
             (veq_trans _ _ _ Hv (veq_sym _ _ Hc))).
  unfold np.matvec at 1.
  rewrite (nth_indep (map _ H) 0
             (np.dot [] (np.matvec W (unit_impulse m (Z.to_nat k)))))
    by (rewrite length_map; lia).
  rewrite (map_nth
             (fun r => np.dot r (np.matvec W (unit_impulse m (Z.to_nat k))))).
  assert (Hkm : (Z.to_nat k < m)%nat) by lia.
  rewrite (dot_veq_r _ _ _ (matvec_impulse W m (Z.to_nat k) Hkm)).
  rewrite (response_score D h (N self) (Z.to_nat k) H W sc E Sc HW)
    by (fold m; lia).
  rewrite Hs. ring.
Qed.

Lemma equalize_at_delay_witness :
  exists mse,
    fst (design (MMSE pow_floor 20) [1; 0.5] (Some 1%Z) (init 2)) = Ok mse /\
    (0 <= 1 < Z.of_nat (length [1; 0.5]%Q + N (init 2) - 1))%Z /\
    exists y,
      equalize (snd (design (MMSE pow_floor 20) [1; 0.5] (Some 1%Z) (init 2)))
               [1; 0.5] = Ok y /\
      nth 1 y 0 == 1 - mse.
Proof.
  set (out := design (MMSE pow_floor 20) [1; 0.5] (Some 1%Z) (init 2)).
  assert (Hok : fst out = Ok (match fst out with Ok x => x | Raise _ => 0 end))
    by (vm_compute; reflexivity).
  assert (Hk : (0 <= 1 < Z.of_nat (length [1; 0.5]%Q + N (init 2) - 1))%Z)
    by (simpl; lia).
  eexists. split; [exact Hok|]. split; [exact Hk|].
  destruct (equalize_at_delay (MMSE pow_floor 20) [1; 0.5] 1 (init 2) _
              Hok Hk) as (y & Hy & _ & Hv).
  exists y. auto.
Defined.

(** ** When the convolution matrix exists *)

(** X14. [convMatrix(h, p)] returns exactly when the channel is non-empty
    and [p >= 1]: an empty [h] raises [IndexError] at [h[0]] and [p = 0]
    raises [ValueError] at [np.zeros(p-1)]; whenever it returns, the matrix
    has [L+p-1] rows of [p] entries. *)
Theorem convMatrix_returns_iff (h : vector) (p : nat) :
  ((exists H, convMatrix h p = Ok H) <->
   ((1 <= length h)%nat /\ (1 <= p)%nat)) /\
  (forall H, convMatrix h p = Ok H -> shape (length h + p - 1) p H) /\
  (p = 0%nat -> exists msg, convMatrix h p = Raise (ValueError msg)) /\
  ((1 <= p)%nat -> h = [] ->
   exists msg, convMatrix h p = Raise (IndexError msg)).
Proof.
  split; [split|split; [|split]].
  - intros [H E]. destruct (convMatrix_shape _ _ _ E) as (HL & Hp & _). auto.
  - intros [HL Hp]. now apply convMatrix_returns.
  - intros H E. now destruct (convMatrix_shape _ _ _ E) as (_ & _ & Sh).
  - intros ->. eexists. reflexivity.
  - intros Hp ->. unfold convMatrix.
    replace (Z.of_nat p - 1)%Z with (Z.of_nat (p - 1)) by lia.
    rewrite zeros_ok. eexists. reflexivity.
Qed.

Lemma convMatrix_returns_iff_witness :
  (1 <= 2)%nat /\
  exists msg, convMatrix [] 2 = Raise (IndexError msg).
Proof.
  assert (Hp : (1 <= 2)%nat) by lia.
  split; [exact Hp|].
  exact (proj2 (proj2 (proj2 (convMatrix_returns_iff [] 2))) Hp eq_refl).
Defined.
